(** * FiLiP: vocabulary configurator and NGSI-v2 notification model

    A shallow embedding of

    - [filip/semantics/vocabulary_configurator.py]: the class
      [VocabularyConfigurator] and the exception [ParsingException];
    - [filip/models/ngsi_v2/subscriptions.py]: the validators of the
      pydantic model [Notification].

    Python objects that are mutated in place ([Vocabulary]) live in a heap and
    are passed by reference; exceptions are values; the statements that can
    raise run in a small state-and-exception monad. *)

From Stdlib Require Import ZArith Ascii String.
From stdpp Require Import gmap strings list fin_maps.

Local Open Scope string_scope.
Local Open Scope list_scope.
Local Set Warnings "-clear-no-such-hyp".

(** ** Python exceptions *)

(** The exception classes that occur in the two modules.  All of them derive
    from [Exception] except [KeyboardInterrupt], which derives from
    [BaseException] only and stands for what [except Exception] lets pass.
    [UnicodeDecodeError] is a subclass of [ValueError]. *)
Inductive exc_class :=
  | KeyboardInterrupt
  | OSError
  | ParseError
  | ProcessingError
  | TypeError
  | ValueError
  | UnicodeDecodeError
  | KeyError
  | AssertionError
  | ParsingException.

(** An exception instance: its class, its [args] and its [__context__], the
    exception that was being handled when this one was raised. *)
#[warnings="-register-all"]
Inductive exception :=
  | Exc (cls : exc_class) (args : list string) (context : option exception).

Definition exc_cls (e : exception) : exc_class :=
  match e with Exc c _ _ => c end.

Definition exc_args (e : exception) : list string :=
  match e with Exc _ a _ => a end.


(** [isinstance(e, Exception)] *)
Definition is_Exception (e : exception) : bool :=
  match exc_cls e with
  | KeyboardInterrupt => false
  | _ => true
  end.

(** Raising inside an [except] block sets [__context__] of the new exception
    to the exception being handled. *)
Definition with_context (e handled : exception) : exception :=
  match e with Exc c a _ => Exc c a (Some handled) end.

(** [class ParsingException(Exception)]: [__init__(self, value)] takes exactly
    one positional argument besides [self] and stores it; a call with another
    number of arguments is a [TypeError] of the interpreter. *)
Definition ParsingException___init__ (args : list string)
  : exception + exception :=
  match args with
  | [value] => inr (Exc ParsingException [value] None)
  | [] => inl (Exc TypeError
      ["__init__() missing 1 required positional argument: 'value'"] None)
  | _ => inl (Exc TypeError
      ["__init__() takes 2 positional arguments but more were given"] None)
  end.

(** [raise C] with a class [C]: the instance is obtained by calling the class
    with no arguments; when that call raises, its exception is the one that
    propagates. *)
Definition instantiate_for_raise
  (init : list string → exception + exception) : exception :=
  match init [] with
  | inl e => e
  | inr e => e
  end.

(** ** Strings *)

(** [s.replace(c, '')] for a one-character [c]. *)
Fixpoint str_remove (c : ascii) (s : string) : string :=
  match s with
  | EmptyString => EmptyString
  | String a r =>
      if Ascii.eqb a c then str_remove c r else String a (str_remove c r)
  end.

Definition newline : ascii := Ascii.ascii_of_nat 10.

(** [s.split(c)[0]]: the text before the first [c], all of [s] without one. *)
Fixpoint str_split_head (c : ascii) (s : string) : string :=
  match s with
  | EmptyString => EmptyString
  | String a r =>
      if Ascii.eqb a c then EmptyString else String a (str_split_head c r)
  end.

(** [os.path.basename] (posixpath): the text after the last slash. *)
Fixpoint basename_go (cur p : string) : string :=
  match p with
  | EmptyString => cur
  | String a r =>
      if Ascii.eqb a "/" then basename_go EmptyString r
      else basename_go (cur +:+ String a EmptyString) r
  end.

Definition os_path_basename (p : string) : string := basename_go "" p.

(** ** Data model *)

(** Modelled from the spec: [Source] is declared in [filip/semantics/vocabulary.py],
    which is not part of the sources at hand; the fields are the three keyword
    arguments the configurator passes.  A source is immutable once created. *)
Record Source := mkSource {
  source_name : string;
  content : string;
  timestamp : Z;
}.

(** The four element collections of a vocabulary. *)
Inductive kind := Class | ObjectProperty | DataProperty | Individual.

#[global] Instance kind_eq_dec : EqDecision kind.
Proof. solve_decision. Defined.

#[global] Instance kind_countable : Countable kind.
Proof.
  refine (inj_countable'
    (λ k, match k with
          | Class => 0 | ObjectProperty => 1
          | DataProperty => 2 | Individual => 3 end)
    (λ n, match n with
          | 0 => Class | 1 => ObjectProperty
          | 2 => DataProperty | _ => Individual end) _).
  by intros [].
Defined.

(** Modelled from the spec: a parsed element carries the raw facts asserted
    about it by the sources, the properties derived by post-processing and the
    settings assigned by the user (a setting name mapped to its value; no
    entry means the default). *)
Record Element := mkElement {
  facts : gset string;
  derived : gset string;
  settings : gmap string string;
}.

Definition default_settings : gmap string string := ∅.

(** Modelled from the spec: [Vocabulary] is declared in
    [filip/semantics/vocabulary.py].  [sources] is a Python dict from source
    name to [Source]: an association list in insertion order, which is the
    order [values()] iterates in.  The four collections keyed by identifier
    are one map keyed by collection and identifier. *)
Record Vocabulary := mkVocabulary {
  sources : list (string * Source);
  elements : gmap (kind * string) Element;
}.

(** [Vocabulary()] *)
Definition Vocabulary_init : Vocabulary :=
  {| sources := []; elements := ∅ |}.

#[global] Instance Vocabulary_inhabited : Inhabited Vocabulary :=
  populate Vocabulary_init.

(** [d[k] = v] on an insertion-ordered dict: an existing key keeps its
    position, a new key goes last. *)
Fixpoint dict_set {A} (k : string) (v : A) (d : list (string * A))
  : list (string * A) :=
  match d with
  | [] => [(k, v)]
  | (k', v') :: r =>
      if decide (k' = k) then (k, v) :: r else (k', v') :: dict_set k v r
  end.

Fixpoint dict_get {A} (k : string) (d : list (string * A)) : option A :=
  match d with
  | [] => None
  | (k', v') :: r => if decide (k' = k) then Some v' else dict_get k r
  end.

(** [d.values()] and [d.keys()] *)
Definition dict_values {A} (d : list (string * A)) : list A := d.*2.
Definition dict_keys {A} (d : list (string * A)) : list string := d.*1.

(** ** The interpreter state and the monad *)

Abbreviation loc := nat (only parsing).

(** What the configurator does to the outside, in order. *)
Inductive Event :=
  | EvNewVocabulary (l : loc)
  | EvParse (source : Source) (target : loc)
  | EvPostProcess (target old : loc).

(** Why [open(path, 'r')] followed by [file.read()] does not give a text. *)
Inductive read_failure :=
  | CannotOpen      (* open raises OSError: no such file, no permission, ... *)
  | BadPath         (* open raises ValueError: embedded null byte in the path *)
  | CannotDecode.   (* read raises UnicodeDecodeError: not text in the encoding *)

Record World := mkWorld {
  heap : list Vocabulary;          (* the Vocabulary objects, by reference *)
  files : gmap string string;      (* paths that open and decode: path to text *)
  failures : gmap string read_failure;
                                   (* why another path fails; no entry: no file *)
  clock : Z;                       (* what datetime.now() reads *)
  trace : list Event;
}.

Definition set_heap (h : list Vocabulary) (w : World) : World :=
  {| heap := h; files := files w; failures := failures w;
      clock := clock w; trace := trace w |}.

Definition log (ev : Event) (w : World) : World :=
  {| heap := heap w; files := files w; failures := failures w;
      clock := clock w;
     trace := trace w ++ [ev] |}.

Inductive outcome (A : Type) :=
  | Return (a : A)
  | Raise (e : exception).
Arguments Return {A} a.
Arguments Raise {A} e.

Definition Py (A : Type) : Type := World → outcome A * World.

Definition ret {A} (a : A) : Py A := λ w, (Return a, w).
Definition raise {A} (e : exception) : Py A := λ w, (Raise e, w).

Definition bind {A B} (m : Py A) (f : A → Py B) : Py B :=
  λ w, match m w with
       | (Return a, w') => f a w'
       | (Raise e, w') => (Raise e, w')
       end.

#[global] Instance Py_ret : MRet Py := @ret.
#[global] Instance Py_bind : MBind Py := λ A B f m, bind m f.

(** [for x in xs: body(x)] *)
Fixpoint for_each {A} (xs : list A) (body : A → Py unit) : Py unit :=
  match xs with
  | [] => ret tt
  | x :: r => body x ;; for_each r body
  end.

(** [try: m  except Exception: h] where the handler sees the exception. *)
Definition try_except_Exception {A} (m : Py A) (h : exception → Py A) : Py A :=
  λ w, match m w with
       | (Return a, w') => (Return a, w')
       | (Raise e, w') =>
           if is_Exception e then h e w' else (Raise e, w')
       end.

(** [raise C] inside the handler of [handled]. *)
Definition raise_class_while_handling {A}
  (init : list string → exception + exception) (handled : exception) : Py A :=
  raise (with_context (instantiate_for_raise init) handled).

(** [datetime.now()] *)
Definition datetime_now : Py Z := λ w, (Return (clock w), w).

(** The exception of a failed read: [open] raises [OSError] or, for a path
    with an embedded null byte, [ValueError]; [read] raises
    [UnicodeDecodeError] when the bytes are not text in the encoding. *)
Definition read_error (path : string) (f : read_failure) : exception :=
  match f with
  | CannotOpen => Exc OSError [path] None
  | BadPath => Exc ValueError ["embedded null byte"] None
  | CannotDecode => Exc UnicodeDecodeError [path] None
  end.

(** How the read of [path] fails in [w] when it does: a path without entry
    does not exist, which is the [OSError] of [open]. *)
Definition failure_of (w : World) (path : string) : read_failure :=
  default CannotOpen (failures w !! path).

(** [with open(path, 'r') as file: file.read()] *)
Definition open_read (path : string) : Py string :=
  λ w, match files w !! path with
       | Some text => (Return text, w)
       | None => (Raise (read_error path (failure_of w path)), w)
       end.

(** Allocation of a fresh [Vocabulary()] object. *)
Definition new_Vocabulary : Py loc :=
  λ w, (Return (length (heap w)),
        log (EvNewVocabulary (length (heap w)))
            (set_heap (heap w ++ [Vocabulary_init]) w)).

(** Reading the object behind a reference. *)
Definition deref (l : loc) : Py Vocabulary := λ w, (Return (heap w !!! l), w).

(** ** The configurator *)

Section Configurator.

(** The two collaborators are imported from modules that are not part of
    the sources at hand.  They are taken as parameters with the shape of
    their contracts: [parse_source_into_vocabulary(source, vocabulary)]
    mutates the vocabulary passed, in place, and may raise;
    [post_process_vocabulary(vocabulary, old_vocabulary)] mutates its first
    argument, reads the second, and may raise.  The result is the raised
    exception, if any, and the state the mutated object is left in. *)
Variable parse_source_into_vocabulary :
  Source → Vocabulary → option exception * Vocabulary.
Variable post_process_vocabulary :
  Vocabulary → Vocabulary → option exception * Vocabulary.

Definition finish (r : option exception) : outcome unit :=
  match r with
  | None => Return tt
  | Some e => Raise e
  end.

(** [parser.parse_source_into_vocabulary(source=source, vocabulary=target)] *)
Definition call_parser (source : Source) (target : loc) : Py unit :=
  λ w, let '(r, v') := parse_source_into_vocabulary source (heap w !!! target) in
       (finish r, log (EvParse source target) (set_heap (<[target := v']> (heap w)) w)).

(** [post_process_vocabulary(vocabulary=target, old_vocabulary=old)] *)
Definition call_post_process (target old : loc) : Py unit :=
  λ w, let '(r, v') :=
         post_process_vocabulary (heap w !!! target) (heap w !!! old) in
       (finish r, log (EvPostProcess target old) (set_heap (<[target := v']> (heap w)) w)).

(** The loop over a list of sources as one function of the target's state:
    the first exception stops it. *)
Fixpoint parse_all (srcs : list Source) (v : Vocabulary)
  : option exception * Vocabulary :=
  match srcs with
  | [] => (None, v)
  | s :: r =>
      match parse_source_into_vocabulary s v with
      | (None, v') => parse_all r v'
      | (Some e, v') => (Some e, v')
      end
  end.

(** The sources the loop hands to the parser: all up to and including the
    first one that raises. *)
Fixpoint attempted (srcs : list Source) (v : Vocabulary) : list Source :=
  match srcs with
  | [] => []
  | s :: r =>
      s :: match parse_source_into_vocabulary s v with
           | (None, v') => attempted r v'
           | (Some _, _) => []
           end
  end.

(** [VocabularyConfigurator.create_vocabulary] *)
Definition create_vocabulary : Py loc := new_Vocabulary.

(** [VocabularyConfigurator.__parse_sources_into_vocabulary].  The first loop
    iterates over the dict of the prior vocabulary while the parser writes
    to the new object only, so the values read before the loop are the ones
    it visits.  The first loop stands outside the [try] block. *)
Definition parse_sources_into_vocabulary
  (vocabulary : loc) (new_sources : list Source) : Py loc :=
  new_vocabulary ← new_Vocabulary;
  old ← deref vocabulary;
  for_each (dict_values (sources old))
    (λ source, call_parser source new_vocabulary);;
  try_except_Exception
    (for_each new_sources (λ source, call_parser source new_vocabulary);;
     call_post_process new_vocabulary vocabulary)
    (λ e, raise_class_while_handling ParsingException___init__ e);;
  ret new_vocabulary.

(** [VocabularyConfigurator.add_ontology_to_vocabulary_as_file] *)
Definition add_ontology_to_vocabulary_as_file
  (vocabulary : loc) (path_to_file : string) : Py loc :=
  text ← open_read path_to_file;
  let data := str_remove newline text in
  let filename := str_split_head "." (os_path_basename path_to_file) in
  now ← datetime_now;
  let source :=
    {| source_name := filename; content := data; timestamp := now |} in
  parse_sources_into_vocabulary vocabulary [source].

(** [VocabularyConfigurator.add_ontology_to_vocabulary_as_string] *)
Definition add_ontology_to_vocabulary_as_string
  (vocabulary : loc) (source_name : string) (source_content : string)
  : Py loc :=
  now ← datetime_now;
  let source :=
    {| source_name := source_name; content := source_content;
       timestamp := now |} in
  parse_sources_into_vocabulary vocabulary [source].

End Configurator.

(** ** The merge protocol in the words of the specification *)

Section MergeProtocol.

Variable parse_source_into_vocabulary :
  Source → Vocabulary → option exception * Vocabulary.
Variable post_process_vocabulary :
  Vocabulary → Vocabulary → option exception * Vocabulary.

(** Build a brand-new empty vocabulary; re-parse every source of the prior
    vocabulary into it, in order; then parse the newly supplied sources into
    the same vocabulary; then post-process it with the prior vocabulary as
    reference. *)
Definition merge_protocol (old : Vocabulary) (new_sources : list Source)
  : option exception * Vocabulary :=
  match parse_all parse_source_into_vocabulary
          (dict_values (sources old) ++ new_sources) Vocabulary_init with
  | (Some e, v) => (Some e, v)
  | (None, v) => post_process_vocabulary v old
  end.

(** The calls of a complete run of the protocol, in order. *)
Definition protocol_events (new_vocabulary vocabulary : loc)
  (old : Vocabulary) (new_sources : list Source) : list Event :=
  EvNewVocabulary new_vocabulary
  :: ((λ s, EvParse s new_vocabulary)
        <$> (dict_values (sources old) ++ new_sources))
  ++ [EvPostProcess new_vocabulary vocabulary].

(** What escapes the [try] block when the body raised [e]. *)
Definition escaping (e : exception) : exception :=
  if is_Exception e
  then with_context (instantiate_for_raise ParsingException___init__) e
  else e.

(** A run of [__parse_sources_into_vocabulary] in closed form: what it
    returns or raises and the world it leaves, by the stage that fails. *)
Definition merge_run (vocabulary : loc) (old : Vocabulary)
  (new_sources : list Source) (w : World) : outcome loc * World :=
  let l' := length (heap w) in
  let olds := dict_values (sources old) in
  let ev := λ s, EvParse s l' in
  let r1 := parse_all parse_source_into_vocabulary olds Vocabulary_init in
  match r1.1 with
  | Some e =>
      (Raise e,
       {| heap := heap w ++ [r1.2]; files := files w; failures := failures w;
      clock := clock w;
          trace := trace w ++ EvNewVocabulary l'
                     :: (ev <$> attempted parse_source_into_vocabulary olds Vocabulary_init) |})
  | None =>
      let r2 := parse_all parse_source_into_vocabulary new_sources r1.2 in
      match r2.1 with
      | Some e =>
          (Raise (escaping e),
           {| heap := heap w ++ [r2.2]; files := files w; failures := failures w;
      clock := clock w;
              trace := trace w ++ EvNewVocabulary l'
                         :: (ev <$> olds)
                         ++ (ev <$> attempted parse_source_into_vocabulary new_sources r1.2) |})
      | None =>
          let r3 := post_process_vocabulary r2.2 old in
          (match r3.1 with
           | Some e => Raise (escaping e)
           | None => Return l'
           end,
           {| heap := heap w ++ [r3.2]; files := files w; failures := failures w;
      clock := clock w;
              trace := trace w ++ EvNewVocabulary l'
                         :: (ev <$> olds) ++ (ev <$> new_sources)
                         ++ [EvPostProcess l' vocabulary] |})
      end
  end.

End MergeProtocol.

(** Every object that was on the heap before a call is there, unchanged,
    after it. *)
Definition preserved (w w' : World) : Prop :=
  ∀ l v, heap w !! l = Some v → heap w' !! l = Some v.

(** ** The parser and the post-processor, from their contracts *)

Section RdfModel.

(** What the specification leaves open is a parameter: the concrete syntax
    ([None] for malformed text; a declaration names a collection, an
    identifier and the facts asserted about it), the rule that decides when
    a declaration is incompatible with what is already known, the closure
    computed over the raw facts ([None] when it cannot be computed) and the
    judgement that an element is unchanged or compatibly changed with
    respect to its former state. *)
Variable parse_content : string → option (list (kind * string * gset string)).
Variable conflicts :
  gmap (kind * string) Element → kind * string * gset string → bool.
Variable closure :
  gmap (kind * string) (gset string) → option (gmap (kind * string) (gset string)).
Variable compatibly_changed : Element → gset string → bool.

(** Modelled from the spec: one declaration either creates a new element
    record or merges its facts into the existing element with the same
    identifier; the merge is a union and keeps what was known (RdfParser,
    section 4.1; [filip/semantics/ontology_parser/rdfparser.py] is missing). *)
Definition declare (d : kind * string * gset string)
  (els : gmap (kind * string) Element) : gmap (kind * string) Element :=
  match els !! (d.1.1, d.1.2) with
  | Some e =>
      <[(d.1.1, d.1.2) :=
          {| facts := facts e ∪ d.2; derived := derived e;
             settings := settings e |}]> els
  | None =>
      <[(d.1.1, d.1.2) :=
          {| facts := d.2; derived := ∅; settings := default_settings |}]> els
  end.

(** Modelled from the spec: the declarations of one source are merged in
    order; an incompatible one is a [ParseError] of kind conflict. *)
Fixpoint declare_all (name : string) (ds : list (kind * string * gset string))
  (els : gmap (kind * string) Element)
  : option exception * gmap (kind * string) Element :=
  match ds with
  | [] => (None, els)
  | d :: r =>
      if conflicts els d
      then (Some (Exc ParseError ["conflict"; name; d.1.2] None), els)
      else declare_all name r (declare d els)
  end.

(** Modelled from the spec: [RdfParser.parse_source_into_vocabulary]
    (section 4.1).  Malformed content is a [ParseError] of kind syntax naming
    the source; otherwise the source is inserted into [vocabulary.sources]
    under its name and its declarations are merged into the elements. *)
Definition rdf_parse_source_into_vocabulary (source : Source) (v : Vocabulary)
  : option exception * Vocabulary :=
  match parse_content (content source) with
  | None => (Some (Exc ParseError ["syntax"; source_name source] None), v)
  | Some ds =>
      let r := declare_all (source_name source) ds (elements v) in
      (r.1, {| sources := dict_set (source_name source) source (sources v);
               elements := r.2 |})
  end.

(** Modelled from the spec: the settings an element of the new vocabulary
    receives (section 4.2).  Its counterpart is the old element with the same
    identifier; the settings of a counterpart judged unchanged or compatibly
    changed are carried forward; an element without one gets the defaults. *)
Definition carried_settings (old : gmap (kind * string) Element)
  (key : kind * string) (e : Element) : gmap string string :=
  match old !! key with
  | Some eo =>
      if compatibly_changed eo (facts e) then settings eo
      else default_settings
  | None => default_settings
  end.

(** Modelled from the spec: [post_process_vocabulary] (section 4.2;
    [filip/semantics/ontology_parser/post_processer.py] is missing).  It
    computes the derived properties from the raw facts of the complete
    vocabulary, a [ProcessingError] when that fails, and carries the
    settings forward from the old vocabulary, which it only reads. *)
Definition rdf_post_process_vocabulary (v old : Vocabulary)
  : option exception * Vocabulary :=
  match closure (facts <$> elements v) with
  | None => (Some (Exc ProcessingError [] None), v)
  | Some cl =>
      (None,
       {| sources := sources v;
          elements :=
            map_imap (λ key e,
              Some {| facts := facts e;
                      derived := default ∅ (cl !! key);
                      settings := carried_settings (elements old) key e |})
              (elements v) |})
  end.

(** The configurator on top of this parser and post-processor. *)
Definition rdf_add_ontology_to_vocabulary_as_string :=
  add_ontology_to_vocabulary_as_string
    rdf_parse_source_into_vocabulary rdf_post_process_vocabulary.

End RdfModel.

Section Declarations.

Variable parse_content : string → option (list (kind * string * gset string)).

(** The declarations of a list of sources, in order. *)
Definition decls_of (srcs : list Source) : list (kind * string * gset string) :=
  srcs ≫= λ s, default [] (parse_content (content s)).
End Declarations.

(** Merging a list of declarations, without the conflict check. *)
Definition declare_list (ds : list (kind * string * gset string))
  (els : gmap (kind * string) Element) : gmap (kind * string) Element :=
  foldl (λ acc d, declare d acc) els ds.

(** The facts a list of declarations asserts about one identifier. *)
Fixpoint asserted (ds : list (kind * string * gset string)) (key : kind * string)
  : gset string :=
  match ds with
  | [] => ∅
  | d :: r =>
      (if decide ((d.1.1, d.1.2) = key) then d.2 else ∅) ∪ asserted r key
  end.

(** Filing a list of sources under their names. *)
Definition file_all (srcs : list Source) (d : list (string * Source))
  : list (string * Source) :=
  foldl (λ acc s, dict_set (source_name s) s acc) d srcs.

(** No source filed under [name] has a content other than [text]. *)
Definition no_other_content (name text : string) (d : list (string * Source))
  : Prop :=
  ∀ s, dict_get name d = Some s → content s = text.

(** What two vocabularies have in common when they hold the same elements with
    the same facts, whatever the settings. *)
Definition element_facts (v : Vocabulary)
  : gmap (kind * string) (gset string * gset string) :=
  (λ e, (facts e, derived e)) <$> elements v.

(** The invariant of [sources] as a mapping from source name to source: keys
    are unique and every source is filed under its own name. *)
Definition sources_wf (v : Vocabulary) : Prop :=
  NoDup (dict_keys (sources v)) ∧
  Forall (λ kv, kv.1 = source_name kv.2) (sources v).

(** *** A small instance *)

(** A toy syntax to run the configurator on: every character declares the
    class named by it, without further facts, and an exclamation mark is
    malformed.  Nothing conflicts, the closure is empty and every counterpart
    is judged compatible. *)
Fixpoint toy_parse_content (c : string)
  : option (list (kind * string * gset string)) :=
  match c with
  | EmptyString => Some []
  | String a r =>
      if Ascii.eqb a "!" then None
      else (λ ds, (Class, String a EmptyString, ∅) :: ds) <$> toy_parse_content r
  end.

Definition toy_conflicts (els : gmap (kind * string) Element)
  (d : kind * string * gset string) : bool := false.

Definition toy_closure (raw : gmap (kind * string) (gset string))
  : option (gmap (kind * string) (gset string)) := Some ∅.

Definition toy_compatibly_changed (e : Element) (fs : gset string) : bool := true.

Definition toy_parse :=
  rdf_parse_source_into_vocabulary toy_parse_content toy_conflicts.
Definition toy_post :=
  rdf_post_process_vocabulary toy_closure toy_compatibly_changed.
Definition toy_add :=
  add_ontology_to_vocabulary_as_string toy_parse toy_post.
Definition toy_add_file :=
  add_ontology_to_vocabulary_as_file toy_parse toy_post.

(** A world with one empty vocabulary at reference [0]. *)
Definition world0 (now : Z) : World :=
  {| heap := [Vocabulary_init]; files := ∅; failures := ∅; clock := now; trace := [] |}.

(** Running a call and keeping going in the world it leaves, whatever the
    outcome; the reference is [None] after an exception. *)
Definition run {A} (m : Py A) (w : World) : option A * World :=
  match m w with
  | (Return a, w') => (Some a, w')
  | (Raise _, w') => (None, w')
  end.

Definition raised {A} (m : Py A) (w : World) : option exception :=
  match m w with
  | (Return _, _) => None
  | (Raise e, _) => Some e
  end.

(** ** The notification model of [subscriptions.py] *)

Module Notification.

(** The endpoint models.  [Http] and [AttrsFormat] are imported from the
    [base] module, which is not part of the sources at hand: [Http] is kept
    to its URL and [AttrsFormat] to the three values the field description
    names.  The validators below only test such values against [None]. *)
Record Http := { http_url : string }.

Record HttpCustom := {
  hc_url : string;
  hc_headers : option (gmap string string);
  hc_qs : option (gmap string string);
  hc_method : string;
  hc_payload : option string;
}.

Record Mqtt := { mqtt_url : string; mqtt_topic : string; mqtt_qos : option Z }.

Record MqttCustom := {
  mc_url : string;
  mc_topic : option string;
  mc_qos : option Z;
  mc_payload : option string;
}.

Inductive AttrsFormat := NORMALIZED | KEY_VALUES | VALUES.

(** What a field of [Notification] can hold. *)
Inductive field_value :=
  | VNone
  | VHttp (v : Http)
  | VHttpCustom (v : HttpCustom)
  | VMqtt (v : Mqtt)
  | VMqttCustom (v : MqttCustom)
  | VStrList (v : list string)
  | VAttrsFormat (v : AttrsFormat)
  | VAny (v : string).

(** [v is None] *)
Definition is_None (v : field_value) : bool :=
  match v with VNone => true | _ => false end.

(** A validator returns its value or raises.  Pydantic turns a
    [ValueError], [TypeError] or [AssertionError] into a validation error of
    the model; any other exception leaves the validation as it is. *)
Definition getitem (values : gmap string field_value) (k : string)
  : exception + field_value :=
  match values !! k with
  | Some v => inr v
  | None => inl (Exc KeyError [k] None)
  end.

(** [assert b] *)
Definition assert (b : bool) : exception + unit :=
  if b then inr tt else inl (Exc AssertionError [] None).

(** [all((v is None for k, v in values.items() if k in keys))] *)
Definition all_None_in (keys : list string) (values : gmap string field_value)
  : bool :=
  forallb (λ kv, is_None kv.2)
    (List.filter (λ kv : string * field_value, bool_decide (kv.1 ∈ keys))
       (map_to_list values)).

(** [Notification.validate_http], the validator of the field [httpCustom] *)
Definition validate_http (http_custom : field_value)
  (values : gmap string field_value) : exception + field_value :=
  if negb (is_None http_custom) then
    match getitem values "http" with
    | inl e => inl e
    | inr http =>
        match assert (is_None http) with
        | inl e => inl e
        | inr _ => inr http_custom
        end
    end
  else inr http_custom.

(** [Notification.validate_attr], the validator of the field [exceptAttrs] *)
Definition validate_attr (except_attrs : field_value)
  (values : gmap string field_value) : exception + field_value :=
  if negb (is_None except_attrs) then
    match getitem values "attrs" with
    | inl e => inl e
    | inr attrs =>
        match assert (is_None attrs) with
        | inl e => inl e
        | inr _ => inr except_attrs
        end
    end
  else inr except_attrs.

Definition asserting (b : bool) (values : gmap string field_value)
  : exception + gmap string field_value :=
  match assert b with
  | inl e => inl e
  | inr _ => inr values
  end.

(** [Notification.validate_endpoints], the root validator *)
Definition validate_endpoints (values : gmap string field_value)
  : exception + gmap string field_value :=
  match getitem values "http" with
  | inl e => inl e
  | inr http =>
      if negb (is_None http) then
        asserting (all_None_in ["httpCustom"; "mqtt"; "mqttCustom"] values) values
      else
        match getitem values "httpCustom" with
        | inl e => inl e
        | inr http_custom =>
            if negb (is_None http_custom) then
              asserting (all_None_in ["http"; "mqtt"; "mqttCustom"] values) values
            else
              match getitem values "mqtt" with
              | inl e => inl e
              | inr mqtt =>
                  if negb (is_None mqtt) then
                    asserting
                      (all_None_in ["http"; "httpCustom"; "mqttCustom"] values)
                      values
                  else
                    asserting
                      (all_None_in ["http"; "httpCustom"; "mqtt"] values)
                      values
              end
        end
  end.

(** The fields of the model in declaration order, which is the order they
    are validated in, with the validator of each. *)
Definition field_names : list string :=
  ["http"; "httpCustom"; "mqtt"; "mqttCustom";
   "attrs"; "exceptAttrs"; "attrsFormat"; "metadata"].

Definition endpoint_names : list string :=
  ["http"; "httpCustom"; "mqtt"; "mqttCustom"].

Definition field_validator (name : string) (v : field_value)
  (values : gmap string field_value) : exception + field_value :=
  if decide (name = "httpCustom") then validate_http v values
  else if decide (name = "exceptAttrs") then validate_attr v values
  else inr v.

(** [field.default] *)
Definition field_default (name : string) : field_value :=
  if decide (name = "attrsFormat") then VAttrsFormat NORMALIZED else VNone.

(** Which exceptions pydantic collects as validation errors. *)
Definition collected (e : exception) : bool :=
  match exc_cls e with
  | ValueError | TypeError | AssertionError => true
  | _ => false
  end.

Inductive validation :=
  | Valid (values : gmap string field_value)
  | ValidationError (errors : list exception)
  | Crash (e : exception).

(** The field loop of pydantic's [validate_model]: a field whose validator
    fails is recorded as an error and left out of [values]. *)
Fixpoint validate_fields (names : list string)
  (input values : gmap string field_value) (errors : list exception)
  : exception + (gmap string field_value * list exception) :=
  match names with
  | [] => inr (values, errors)
  | name :: rest =>
      let v := default (field_default name) (input !! name) in
      match field_validator name v values with
      | inr v' => validate_fields rest input (<[name := v']> values) errors
      | inl e =>
          if collected e
          then validate_fields rest input values (errors ++ [e])
          else inl e
      end
  end.

(** The root validators run after the fields, also when a field failed
    ([skip_on_failure] is not set); the model is valid when nothing was
    collected. *)
Definition run_root_validator (values : gmap string field_value)
  (errors : list exception) : validation :=
  match validate_endpoints values with
  | inr values' =>
      match errors with
      | [] => Valid values'
      | _ => ValidationError errors
      end
  | inl e =>
      if collected e then ValidationError (errors ++ [e]) else Crash e
  end.

(** Construction of a [Notification] from keyword arguments *)
Definition validate_model (input : gmap string field_value) : validation :=
  match validate_fields field_names input ∅ [] with
  | inl e => Crash e
  | inr (values, errors) => run_root_validator values errors
  end.

(** [instance.name = value] under [validate_assignment = True]: the field is
    validated against the other fields of the instance, then the root
    validator runs on the instance's values with the new one in place. *)
Definition setattr (instance : gmap string field_value) (name : string)
  (value : field_value) : validation :=
  if bool_decide (name ∈ field_names) then
    match field_validator name value (delete name instance) with
    | inr v' => run_root_validator (<[name := v']> instance) []
    | inl e =>
        if collected e
        then run_root_validator (<[name := value]> instance) [e]
        else Crash e
    end
  else Crash (Exc ValueError [name] None).

(** Whether a field is present and holds something other than [None]. *)
Definition is_set (values : gmap string field_value) (k : string) : bool :=
  match values !! k with
  | Some v => negb (is_None v)
  | None => false
  end.

(** How many of the four endpoint fields hold something. *)
Definition endpoints_set (values : gmap string field_value) : nat :=
  length (List.filter (is_set values) endpoint_names).

(** The value a field is validated with: the one given or the default. *)
Definition given (input : gmap string field_value) (name : string)
  : field_value :=
  default (field_default name) (input !! name).

End Notification.

(** *** Sample worlds *)

(** The worlds reached from [world0] by successive adds in the toy syntax;
    each add allocates the next reference. *)
Definition world_aX : World := (toy_add 0 "a" "X" (world0 1)).2.
Definition world_aX_aY : World := (toy_add 1 "a" "Y" world_aX).2.
Definition world_aX_aY_bZ : World := (toy_add 2 "b" "Z" world_aX_aY).2.
Definition world_aX_bZ : World := (toy_add 1 "b" "Z" world_aX).2.
Definition world_aX_bZ_aY : World := (toy_add 2 "a" "Y" world_aX_bZ).2.
Definition world_aX_bY : World := (toy_add 1 "b" "Y" world_aX).2.
Definition world_bY : World := (toy_add 0 "b" "Y" (world0 1)).2.
Definition world_bY_aX : World := (toy_add 1 "a" "X" world_bY).2.

(** A vocabulary whose class [X] carries a label assigned by the user. *)
Definition labelled : Vocabulary :=
  {| sources := [("a", {| source_name := "a"; content := "X"; timestamp := 1 |})];
     elements :=
       {[ (Class, "X") :=
            {| facts := ∅; derived := ∅;
               settings := {[ "label" := "Tier" ]} |} ]} |}.

Definition world_labelled : World :=
  {| heap := [labelled]; files := ∅; failures := ∅; clock := 2; trace := [] |}.

(** A world with one readable file of two lines, a file that is not text, a
    path with a null byte and a file that cannot be opened. *)
Definition two_lines : string := "AB" +:+ String newline "C".

Definition nul_path : string := "/data/a" +:+ String Ascii.zero ".ttl".

Definition world_file : World :=
  {| heap := [Vocabulary_init];
     files := {[ "/data/animals.v2.ttl" := two_lines ]};
     failures := {[ "/data/latin1.ttl" := CannotDecode; nul_path := BadPath;
                    "/root/secret.ttl" := CannotOpen ]};
     clock := 7; trace := [] |}.

(** A second world that holds an empty vocabulary, at another reference and
    with another history. *)
Definition world_other : World :=
  {| heap := [labelled; Vocabulary_init]; files := ∅; failures := ∅; clock := 5;
     trace := [EvNewVocabulary 1] |}.

(** Keyword arguments for a notification over MQTT, and with a second
    endpoint. *)
Definition broker : Notification.field_value :=
  Notification.VMqtt
    {| Notification.mqtt_url := "mqtt://broker:1883";
       Notification.mqtt_topic := "alerts";
       Notification.mqtt_qos := Some 0%Z |}.

Definition receiver : Notification.field_value :=
  Notification.VHttp {| Notification.http_url := "http://receiver:8080" |}.

Definition input_mqtt : gmap string Notification.field_value :=
  {[ "mqtt" := broker ]}.

Definition input_mqtt_http : gmap string Notification.field_value :=
  {[ "mqtt" := broker; "http" := receiver ]}.

(** The instance built from [input_mqtt]. *)
Definition notification_mqtt : gmap string Notification.field_value :=
  match Notification.validate_model input_mqtt with
  | Notification.Valid values => values
  | _ => ∅
  end.

(** ** The master client of [core/client.py]: secrets and authentication *)

Module Client.

(** The exceptions these methods can end with: a missing attribute, a missing
    key, and whatever [json.load] raises on a text it cannot decode. *)
Inductive error :=
  | AttributeError (attr : string)
  | KeyError (key : string)
  | JSONDecodeError (msg : string).

Definition EACCES : Z := 13.

Inductive level := INFO | ERROR.

Section WithValues.

(** The values of the secrets are whatever the JSON file holds; the client
    never looks into them. *)
Context {V : Type}.

(** [json.load] on the text of a file, as far as it yields a mapping. *)
Variable json_load : string → error + gmap string V.

(** [requests.auth.HTTPBasicAuth] and [HTTPDigestAuth] *)
Inductive auth :=
  | HTTPBasicAuth (username password : V)
  | HTTPDigestAuth (username password : V).

(** [requests.Session], kept to the attribute the client sets; a new session
    has no authentication. *)
Record Session := { session_auth : option auth }.

Definition new_Session : Session := {| session_auth := None |}.

(** A client and its surroundings: the attribute [__secrets] ([None] while it
    has not been assigned), the reference held in [self.session], the session
    objects, the files by path (an [errno] for one that cannot be opened;
    a path that is not there is [ENOENT]) and the records handed to the
    logger. *)
Record state := mkState {
  secrets_attr : option (gmap string V);
  session : nat;
  sessions : list Session;
  disk : gmap string (Z + string);
  records : list (level * string);
}.

Definition set_secrets (d : gmap string V) (st : state) : state :=
  {| secrets_attr := Some d; session := session st; sessions := sessions st;
     disk := disk st; records := records st |}.


(** [self.__secrets] *)
Definition the_secrets (st : state) : error + gmap string V :=
  match secrets_attr st with
  | Some d => inr d
  | None => inl (AttributeError "_Client__secrets")
  end.

(** The property [secrets]: its getter, *)
Definition secrets_get (st : state) : (error + gmap string V) * state :=
  (the_secrets st, st).

(** its setter, [self.__secrets.update(data)], *)
Definition secrets_set (data : gmap string V) (st : state)
  : (error + unit) * state :=
  match the_secrets st with
  | inl e => (inl e, st)
  | inr d => (inr tt, set_secrets (data ∪ d) st)
  end.

(** and its deleter, [self.__secrets = {}]. *)
Definition secrets_del (st : state) : (error + unit) * state :=
  (inr tt, set_secrets ∅ st).



(** [self.session = Session()] *)
Definition replace_session (st : state) : state :=
  {| secrets_attr := secrets_attr st; session := length (sessions st);
     sessions := sessions st ++ [new_Session];
     disk := disk st; records := records st |}.

(** [self.session.auth = a] *)
Definition set_session_auth (a : auth) (st : state) : state :=
  {| secrets_attr := secrets_attr st; session := session st;
     sessions := <[session st := {| session_auth := Some a |}]> (sessions st);
     disk := disk st; records := records st |}.

(** [d[key]] *)
Definition subscript (d : gmap string V) (key : string) : error + V :=
  match d !! key with
  | Some v => inr v
  | None => inl (KeyError key)
  end.

(** The body the two authentication methods share: a new session first, then
    the credentials; [except KeyError: pass]. *)
Definition http_auth (make : V → V → auth) (st : state)
  : (error + unit) * state :=
  let st1 := replace_session st in
  match the_secrets st1 with
  | inl e => (inl e, st1)
  | inr d =>
      match subscript d "username" with
      | inl (KeyError _) => (inr tt, st1)
      | inl e => (inl e, st1)
      | inr u =>
          match subscript d "password" with
          | inl (KeyError _) => (inr tt, st1)
          | inl e => (inl e, st1)
          | inr p => (inr tt, set_session_auth (make u p) st1)
          end
      end
  end.

(** [Client.__http_basic_auth] *)
Definition http_basic_auth : state → (error + unit) * state :=
  http_auth HTTPBasicAuth.

(** [Client.__http_digest_auth] *)
Definition http_digest_auth : state → (error + unit) * state :=
  http_auth HTTPDigestAuth.

End WithValues.

Arguments auth V : clear implicits.
Arguments Session V : clear implicits.
Arguments state V : clear implicits.

End Client.

(** *** More sample data *)

(** [sep.join(parts)] *)
Fixpoint str_join (sep : string) (parts : list string) : string :=
  match parts with
  | [] => ""
  | [x] => x
  | x :: r => x +:+ sep +:+ str_join sep r
  end.

(** A vocabulary whose only source is malformed in the toy syntax, as after
    an edit of the stored content. *)
Definition spoiled : Vocabulary :=
  {| sources := [("a", {| source_name := "a"; content := "!"; timestamp := 1 |})];
     elements := ∅ |}.

Definition world_spoiled : World :=
  {| heap := [spoiled]; files := ∅; failures := ∅; clock := 2; trace := [] |}.

(** A post-processor that is interrupted from the keyboard. *)
Definition interrupted_post (v old : Vocabulary)
  : option exception * Vocabulary :=
  (Some (Exc KeyboardInterrupt [] None), v).

(** Keyword arguments with a list of excluded attributes, and the instance
    built from them. *)
Definition input_except : gmap string Notification.field_value :=
  {[ "exceptAttrs" := Notification.VStrList ["humidity"] ]}.

Definition notification_except : gmap string Notification.field_value :=
  match Notification.validate_model input_except with
  | Notification.Valid values => values
  | _ => ∅
  end.


Definition client0 : Client.state string :=
  {| Client.secrets_attr := Some {[ "username" := "ada"; "token" := "old" ]};
     Client.session := 0;
     Client.sessions := [Client.new_Session];
     Client.disk := {[ "/etc/secrets.json" := inr "{pw}";
                       "/root/secrets.json" := inl Client.EACCES ]};
     Client.records := [] |}.

(** * Facts about the configurator *)

Section ConfiguratorFacts.

Variable parse : Source → Vocabulary → option exception * Vocabulary.
Variable post : Vocabulary → Vocabulary → option exception * Vocabulary.

Lemma parse_all_app srcs1 srcs2 v :
  parse_all parse (srcs1 ++ srcs2) v =
    match parse_all parse srcs1 v with
    | (None, v') => parse_all parse srcs2 v'
    | (Some e, v') => (Some e, v')
    end.
Proof.
  revert v. induction srcs1 as [|s r IH]; intros v; simpl; [done|].
  destruct (parse s v) as [[e|] v']; [done|]. apply IH.
Qed.

Lemma attempted_all srcs v v' :
  parse_all parse srcs v = (None, v') → attempted parse srcs v = srcs.
Proof.
  revert v. induction srcs as [|s r IH]; intros v; simpl; [done|].
  destruct (parse s v) as [[e|] v1]; [done|].
  intros H. f_equal. by apply IH.
Qed.

(** The loop over the sources, run on the heap. *)
Lemma for_each_call_parser srcs l w :
  l < length (heap w) →
  for_each srcs (λ s, call_parser parse s l) w =
    (finish (parse_all parse srcs (heap w !!! l)).1,
     {| heap := <[l := (parse_all parse srcs (heap w !!! l)).2]> (heap w);
        files := files w; failures := failures w;
      clock := clock w;
        trace := trace w ++ ((λ s, EvParse s l) <$> attempted parse srcs (heap w !!! l)) |}).
Proof.
  revert w. induction srcs as [|s r IH]; intros w Hl.
  - destruct w as [h f c t]; simpl in *. unfold ret. f_equal. f_equal.
    + symmetry. apply list_insert_id. by apply list_lookup_lookup_total_lt.
    + by rewrite app_nil_r.
  - simpl. unfold mbind, Py_bind, bind, call_parser.
    destruct (parse s (heap w !!! l)) as [[e|] v'] eqn:Hp; simpl.
    + done.
    + rewrite IH; simpl; [|by rewrite length_insert].
      rewrite list_lookup_total_insert_eq by done.
      rewrite list_insert_insert_eq. by rewrite <- app_assoc.
Qed.


Lemma snoc_insert (h : list Vocabulary) v v' :
  <[length h := v']> (h ++ [v]) = h ++ [v'].
Proof. rewrite insert_app_r_alt by lia. by rewrite Nat.sub_diag. Qed.

Lemma snoc_lookup_total (h : list Vocabulary) v :
  (h ++ [v]) !!! length h = v.
Proof. rewrite lookup_total_app_r by lia. by rewrite Nat.sub_diag. Qed.

Lemma parse_sources_into_vocabulary_run vocabulary old news w :
  heap w !! vocabulary = Some old →
  parse_sources_into_vocabulary parse post vocabulary news w =
    merge_run parse post vocabulary old news w.
Proof.
  intros Hold.
  assert (Hlt : vocabulary < length (heap w)) by by eapply lookup_lt_Some.
  unfold parse_sources_into_vocabulary, merge_run, mbind, Py_bind, bind.
  unfold new_Vocabulary, deref; simpl.
  rewrite lookup_total_app_l by done.
  rewrite (list_lookup_total_correct _ _ _ Hold).
  rewrite for_each_call_parser by (simpl; rewrite length_app; simpl; lia).
  simpl. rewrite snoc_lookup_total, snoc_insert.
  destruct (parse_all parse (dict_values (sources old)) Vocabulary_init)
    as [[e1|] v1] eqn:H1; simpl.
  { by rewrite <- app_assoc. }
  rewrite (attempted_all _ _ _ H1).
  unfold try_except_Exception, mbind, Py_bind, bind.
  rewrite for_each_call_parser by (simpl; rewrite length_app; simpl; lia).
  simpl. rewrite snoc_lookup_total, snoc_insert.
  destruct (parse_all parse news v1) as [[e2|] v2] eqn:H2; simpl.
  { unfold escaping, raise_class_while_handling, raise.
    destruct (is_Exception e2); simpl; by rewrite <- !app_assoc. }
  rewrite (attempted_all _ _ _ H2).
  unfold call_post_process; simpl.
  rewrite snoc_lookup_total.
  rewrite lookup_total_app_l by done.
  rewrite (list_lookup_total_correct _ _ _ Hold).
  destruct (post v2 old) as [[e3|] v3] eqn:H3; simpl; rewrite snoc_insert.
  { unfold escaping, raise_class_while_handling, raise.
    destruct (is_Exception e3); unfold log, set_heap; simpl;
      by rewrite <- !app_assoc. }
  unfold ret, log, set_heap; simpl. by rewrite <- !app_assoc.
Qed.


Lemma merge_run_heap vocabulary old news w :
  ∃ v, heap (merge_run parse post vocabulary old news w).2 = heap w ++ [v].
Proof.
  unfold merge_run.
  destruct (parse_all parse (dict_values (sources old)) Vocabulary_init).1;
    [by eexists|].
  destruct (parse_all parse news _).1; by eexists.
Qed.

Lemma merge_run_return vocabulary old news w l' :
  (merge_run parse post vocabulary old news w).1 = Return l' → l' = length (heap w).
Proof.
  unfold merge_run.
  destruct (parse_all parse (dict_values (sources old)) Vocabulary_init).1;
    [done|].
  destruct (parse_all parse news _).1; [done|]. simpl.
  destruct (post _ old).1; [done|]. by intros [= <-].
Qed.

Lemma add_as_string_unfold vocabulary name text w :
  add_ontology_to_vocabulary_as_string parse post vocabulary name text w =
    parse_sources_into_vocabulary parse post vocabulary
      [{| source_name := name; content := text; timestamp := clock w |}] w.
Proof. done. Qed.

Lemma add_as_file_missing vocabulary path w :
  files w !! path = None →
  add_ontology_to_vocabulary_as_file parse post vocabulary path w =
    (Raise (read_error path (failure_of w path)), w).
Proof.
  intros H. unfold add_ontology_to_vocabulary_as_file, mbind, Py_bind, bind,
    open_read. by rewrite H.
Qed.

Lemma add_as_file_present vocabulary path text w :
  files w !! path = Some text →
  add_ontology_to_vocabulary_as_file parse post vocabulary path w =
    add_ontology_to_vocabulary_as_string parse post vocabulary
      (str_split_head "." (os_path_basename path))
      (str_remove newline text) w.
Proof.
  intros H. unfold add_ontology_to_vocabulary_as_file, mbind, Py_bind, bind,
    open_read. by rewrite H.
Qed.

Lemma fmap_prefix_of {A B} (f : A → B) (l1 l2 : list A) :
  l1 `prefix_of` l2 → f <$> l1 `prefix_of` f <$> l2.
Proof. intros [k ->]. exists (f <$> k). by rewrite fmap_app. Qed.

Lemma attempted_prefix srcs v : attempted parse srcs v `prefix_of` srcs.
Proof.
  revert v. induction srcs as [|s r IH]; intros v; simpl; [done|].
  apply prefix_cons. destruct (parse s v) as [[e|] v']; [|apply IH].
  apply prefix_nil.
Qed.

(** What a call that returns has done. *)
Lemma parse_sources_return_inv vocabulary old news w l w' :
  heap w !! vocabulary = Some old →
  parse_sources_into_vocabulary parse post vocabulary news w = (Return l, w') →
  ∃ v2 v3,
    parse_all parse (dict_values (sources old) ++ news) Vocabulary_init
      = (None, v2)
    ∧ post v2 old = (None, v3)
    ∧ l = length (heap w)
    ∧ heap w' = heap w ++ [v3].
Proof.
  intros Hold. rewrite (parse_sources_into_vocabulary_run _ _ _ _ Hold).
  unfold merge_run. rewrite parse_all_app.
  destruct (parse_all parse (dict_values (sources old)) Vocabulary_init)
    as [[e1|] v1]; simpl; [done|].
  destruct (parse_all parse news v1) as [[e2|] v2]; simpl; [done|].
  destruct (post v2 old) as [[e3|] v3] eqn:H3; simpl; [done|].
  intros [= <- <-]. exists v2, v3. by split_and!.
Qed.


(** C1, as the code behaves.  When the parsing of a supplied source, or the
    post-processing, raises an exception [e] that [except Exception]
    catches, the call does not raise a [ParsingException]: the bare
    [raise ParsingException] of the handler calls the class without the
    argument its [__init__] requires, so what propagates is the
    [TypeError] of that call, with [e] as its [__context__]. *)
Theorem failure_in_try_block_raises_TypeError vocabulary old news w v1 e :
  heap w !! vocabulary = Some old →
  parse_all parse (dict_values (sources old)) Vocabulary_init = (None, v1) →
  (parse_all parse news v1).1 = Some e
  ∨ (∃ v2, parse_all parse news v1 = (None, v2) ∧ (post v2 old).1 = Some e) →
  is_Exception e = true →
  ∃ msg w',
    parse_sources_into_vocabulary parse post vocabulary news w
      = (Raise (Exc TypeError msg (Some e)), w')
    ∧ exc_cls (Exc TypeError msg (Some e)) ≠ ParsingException.
Proof.
  intros Hold H1 Hfail He.
  rewrite (parse_sources_into_vocabulary_run _ _ _ _ Hold).
  unfold merge_run. rewrite H1. simpl.
  destruct Hfail as [H2|(v2 & H2 & H3)].
  - rewrite H2. unfold escaping. rewrite He. simpl. by eexists _, _.
  - rewrite H2. simpl. rewrite H3. unfold escaping. rewrite He. simpl.
    by eexists _, _.
Qed.

(** C2.  For every prior vocabulary and list of new sources, a call
    allocates a brand-new empty vocabulary, hands every source of the prior
    vocabulary's [sources] to the parser, in order, with the new vocabulary
    as target, then the new sources, and only then calls the post-processor,
    once, with the new vocabulary as operand and the input as old reference.
    When the parser accepts every source and the post-processor succeeds,
    which is when the protocol has a result, the call returns: it has
    performed exactly these calls, and what it returns is the reference of
    the new vocabulary, which holds the result of the protocol.  A call that
    raises has performed a prefix of these calls, and the protocol has no
    result; conversely a call that returns has performed all of them. *)
Theorem merge_protocol_followed vocabulary old news w :
  heap w !! vocabulary = Some old →
  let r := parse_sources_into_vocabulary parse post vocabulary news w in
  let new_vocabulary := length (heap w) in
  (∀ v, merge_protocol parse post old news = (None, v) →
     r.1 = Return new_vocabulary
     ∧ heap w !! new_vocabulary = None
     ∧ heap r.2 = heap w ++ [v]
     ∧ trace r.2
       = trace w ++ protocol_events new_vocabulary vocabulary old news)
  ∧ (∀ e, r.1 = Raise e →
       (merge_protocol parse post old news).1 ≠ None
       ∧ ∃ evs, trace r.2 = trace w ++ evs
                ∧ evs `prefix_of`
                    protocol_events new_vocabulary vocabulary old news)
  ∧ (∀ l, r.1 = Return l →
       l = new_vocabulary
       ∧ heap w !! l = None
       ∧ trace r.2 = trace w ++ protocol_events l vocabulary old news
       ∧ ∃ v, merge_protocol parse post old news = (None, v)
              ∧ heap r.2 !! l = Some v).
Proof.
  intros Hold r l'. subst r.
  rewrite (parse_sources_into_vocabulary_run _ _ _ _ Hold).
  unfold merge_run, merge_protocol, protocol_events. fold l'.
  rewrite parse_all_app, fmap_app.
  destruct (parse_all parse (dict_values (sources old)) Vocabulary_init)
    as [[e1|] v1] eqn:H1; simpl.
  { split_and!; [done| |done]. intros e _. split; [done|].
    eexists; split; [done|].
    apply prefix_cons, prefix_app_r, prefix_app_r, fmap_prefix_of, attempted_prefix. }
  destruct (parse_all parse news v1) as [[e2|] v2] eqn:H2; simpl.
  { split_and!; [done| |done]. intros e _. split; [done|].
    eexists; split; [done|].
    apply prefix_cons, prefix_app_r, prefix_app, fmap_prefix_of,
      attempted_prefix. }
  destruct (post v2 old) as [[e3|] v3] eqn:H3; simpl.
  { split_and!; [done| |done]. intros e _. split; [done|].
    eexists; split; [done|]. by rewrite <- app_assoc. }
  split_and!; [|done|].
  - intros v [= <-]. split_and!; [done|by apply lookup_ge_None|done|].
    by rewrite <- app_assoc.
  - intros l [= <-]. split_and!; [done|by apply lookup_ge_None| |].
    + by rewrite fmap_app, <- app_assoc.
    + exists v3. split; [done|]. apply list_lookup_middle. done.
Qed.


Lemma merge_run_preserved vocabulary old news w :
  preserved w (merge_run parse post vocabulary old news w).2.
Proof.
  intros l v Hl. destruct (merge_run_heap vocabulary old news w) as [v' ->].
  by apply lookup_app_l_Some.
Qed.

(** C3, as the code behaves.  When the parsing of the supplied content
    fails, the vocabulary passed in, its [sources] and their number are what
    they were before the call, as is every other object; the exception that
    propagates, however, is the [TypeError] of C1 and not the wrapping
    [ParsingException]. *)
Theorem failed_add_leaves_input_unchanged vocabulary old name text w v1 e v2 :
  heap w !! vocabulary = Some old →
  parse_all parse (dict_values (sources old)) Vocabulary_init = (None, v1) →
  parse {| source_name := name; content := text; timestamp := clock w |} v1
    = (Some e, v2) →
  is_Exception e = true →
  let r := add_ontology_to_vocabulary_as_string parse post vocabulary name text w in
  (∃ msg, r.1 = Raise (Exc TypeError msg (Some e)))
  ∧ heap r.2 !! vocabulary = Some old
  ∧ length (sources (heap r.2 !!! vocabulary)) = length (sources old)
  ∧ preserved w r.2.
Proof.
  intros Hold H1 H2 He r. subst r. rewrite add_as_string_unfold.
  rewrite (parse_sources_into_vocabulary_run _ _ _ _ Hold).
  assert (Hp := merge_run_preserved vocabulary old
    [{| source_name := name; content := text; timestamp := clock w |}] w).
  split_and!; [| by apply Hp | | done].
  - unfold merge_run. rewrite H1. simpl. rewrite H2. simpl.
    unfold escaping. rewrite He. by eexists.
  - by rewrite (list_lookup_total_correct _ _ _ (Hp _ _ Hold)).
Qed.

(** C4.  After every call of [add_ontology_to_vocabulary_as_string] or
    [add_ontology_to_vocabulary_as_file], whether it returns or raises, the
    vocabulary passed in is unchanged, as is every object that existed
    before the call; the reference a call returns is not the one passed in:
    it did not exist before the call. *)
Theorem configurator_does_not_mutate_input vocabulary old w :
  heap w !! vocabulary = Some old →
  (∀ name text,
     let r := add_ontology_to_vocabulary_as_string parse post vocabulary name text w in
     heap r.2 !! vocabulary = Some old ∧ preserved w r.2
     ∧ ∀ l, r.1 = Return l → l ≠ vocabulary ∧ heap w !! l = None)
  ∧ (∀ path,
     let r := add_ontology_to_vocabulary_as_file parse post vocabulary path w in
     heap r.2 !! vocabulary = Some old ∧ preserved w r.2
     ∧ ∀ l, r.1 = Return l → l ≠ vocabulary ∧ heap w !! l = None).
Proof.
  intros Hold.
  assert (Hlt : vocabulary < length (heap w)) by by eapply lookup_lt_Some.
  assert (Hstr : ∀ name text,
     let r := add_ontology_to_vocabulary_as_string parse post vocabulary name text w in
     heap r.2 !! vocabulary = Some old ∧ preserved w r.2
     ∧ ∀ l, r.1 = Return l → l ≠ vocabulary ∧ heap w !! l = None).
  { intros name text r. subst r. rewrite add_as_string_unfold.
    rewrite (parse_sources_into_vocabulary_run _ _ _ _ Hold).
    split_and!.
    - by apply merge_run_preserved.
    - apply merge_run_preserved.
    - intros l Hl. apply merge_run_return in Hl as ->.
      split; [lia|]. by apply lookup_ge_None. }
  split; [done|].
  intros path r. subst r.
  destruct (files w !! path) as [text|] eqn:Hf.
  - rewrite (add_as_file_present _ _ _ _ Hf). apply Hstr.
  - rewrite (add_as_file_missing _ _ _ Hf). simpl.
    split_and!; [done|by intros ??|done].
Qed.

Lemma str_remove_id c s :
  c ∉ list_ascii_of_string s → str_remove c s = s.
Proof.
  induction s as [|a r IH]; simpl; [done|].
  intros Hn. destruct (Ascii.eqb_spec a c) as [->|Hne].
  - exfalso. apply Hn. left.
  - f_equal. apply IH. intros Hin. apply Hn. by right.
Qed.


(** C9, amended.  The outcome of [add_ontology_to_vocabulary_as_string] is a
    function of the state of the prior vocabulary, the source name, the
    source content and the time read from the clock: two runs that agree on
    these, whatever else their heaps, references and histories hold, raise
    the same exception or return vocabularies in equal states. *)
Theorem add_is_a_function_of_vocabulary_source_and_clock
    vocabulary1 vocabulary2 old name text w1 w2 :
  heap w1 !! vocabulary1 = Some old →
  heap w2 !! vocabulary2 = Some old →
  clock w1 = clock w2 →
  let r1 := add_ontology_to_vocabulary_as_string parse post vocabulary1 name text w1 in
  let r2 := add_ontology_to_vocabulary_as_string parse post vocabulary2 name text w2 in
  match r1.1, r2.1 with
  | Return l1, Return l2 =>
      ∃ v, heap r1.2 !! l1 = Some v ∧ heap r2.2 !! l2 = Some v
  | Raise e1, Raise e2 => e1 = e2
  | _, _ => False
  end.
Proof.
  intros H1 H2 Hc r1 r2. subst r1 r2. rewrite !add_as_string_unfold.
  rewrite (parse_sources_into_vocabulary_run _ _ _ _ H1).
  rewrite (parse_sources_into_vocabulary_run _ _ _ _ H2).
  unfold merge_run. rewrite Hc.
  destruct (parse_all parse (dict_values (sources old)) Vocabulary_init)
    as [[e1|] v1]; simpl; [done|].
  destruct (parse _ v1) as [[e2|] v2]; simpl; [done|].
  destruct (post v2 old) as [[e3|] v3]; simpl; [done|].
  exists v3. split; by apply list_lookup_middle.
Qed.

End ConfiguratorFacts.

(** * Facts about the parser and post-processor model *)

Lemma lookup_declare d els key :
  declare d els !! key =
    if decide ((d.1.1, d.1.2) = key) then
      Some match els !! key with
           | Some e => {| facts := facts e ∪ d.2; derived := derived e;
                          settings := settings e |}
           | None => {| facts := d.2; derived := ∅;
                        settings := default_settings |}
           end
    else els !! key.
Proof.
  unfold declare. case_decide as Hk.
  - subst key. destruct (els !! _); by rewrite lookup_insert_eq.
  - destruct (els !! (d.1.1, d.1.2)); by rewrite lookup_insert_ne.
Qed.

Lemma lookup_declare_list ds els key :
  declare_list ds els !! key =
    match els !! key with
    | Some e => Some {| facts := facts e ∪ asserted ds key;
                        derived := derived e; settings := settings e |}
    | None =>
        if decide (key ∈ (λ d, (d.1.1, d.1.2)) <$> ds)
        then Some {| facts := asserted ds key; derived := ∅;
                     settings := default_settings |}
        else None
    end.
Proof.
  unfold declare_list.
  revert els. induction ds as [|d r IH]; intros els.
  - cbn [foldl asserted fmap list_fmap].
    destruct (els !! key) as [[f dv st]|] eqn:E; cbn [facts derived settings].
    + by rewrite (right_id_L ∅ (∪)).
    + rewrite decide_False; [done|]. apply not_elem_of_nil.
  - cbn [foldl asserted]. rewrite IH, lookup_declare, fmap_cons.
    destruct (decide ((d.1.1, d.1.2) = key)) as [Hk|Hk];
      destruct (els !! key) as [e|]; cbn [facts derived settings].
    + by rewrite (assoc_L (∪)).
    + rewrite decide_True by (rewrite Hk; left). done.
    + by rewrite (left_id_L ∅ (∪)).
    + destruct (decide (key ∈ _ <$> r)) as [Hin|Hin].
      * rewrite decide_True by (by right). by rewrite (left_id_L ∅ (∪)).
      * rewrite decide_False; [done|].
        intros [?|?]%elem_of_cons; congruence.
Qed.

Lemma elem_of_asserted ds key x :
  x ∈ asserted ds key ↔ ∃ d, d ∈ ds ∧ (d.1.1, d.1.2) = key ∧ x ∈ d.2.
Proof.
  induction ds as [|d r IH]; simpl.
  - split; [set_solver|]. intros (d & Hd & _). by apply elem_of_nil in Hd.
  - rewrite elem_of_union, IH. split.
    + intros [Hx|(d' & Hd' & Hk & Hx)].
      * case_decide; [|set_solver]. exists d. split_and!; [left|done|done].
      * exists d'. split_and!; [by right|done|done].
    + intros (d' & [->|Hd']%elem_of_cons & Hk & Hx).
      * left. by rewrite decide_True.
      * right. by exists d'.
Qed.



(** From the empty collection, the elements depend on the set of
    declarations only, not on their order or multiplicity. *)
Lemma declare_list_ext ds1 ds2 :
  (∀ d, d ∈ ds1 ↔ d ∈ ds2) → declare_list ds1 ∅ = declare_list ds2 ∅.
Proof.
  intros Heq. apply map_eq. intros key. rewrite !lookup_declare_list.
  rewrite lookup_empty.
  assert (Ha : asserted ds1 key = asserted ds2 key).
  { apply set_eq. intros x. rewrite !elem_of_asserted. naive_solver. }
  assert (Hk : key ∈ (λ d : kind * string * gset string, (d.1.1, d.1.2)) <$> ds1
             ↔ key ∈ (λ d : kind * string * gset string, (d.1.1, d.1.2)) <$> ds2).
  { rewrite !list_elem_of_fmap. naive_solver. }
  rewrite Ha. repeat case_decide; tauto || done.
Qed.

Lemma dict_set_contents name s (d : list (string * Source)) c :
  no_other_content name (content s) d →
  c ∈ content <$> dict_values (dict_set name s d)
  ↔ c ∈ content <$> dict_values d ∨ c = content s.
Proof.
  unfold no_other_content, dict_values.
  induction d as [|[k v] r IH]; intros HP.
  - cbn. rewrite list_elem_of_singleton. set_solver.
  - cbn [dict_set]. destruct (decide (k = name)) as [Hk|Hk].
    + assert (Hv : content v = content s).
      { apply HP. cbn [dict_get]. by rewrite decide_True. }
      rewrite !fmap_cons, !elem_of_cons. cbn [snd]. rewrite Hv. naive_solver.
    + rewrite !fmap_cons, !elem_of_cons, IH; [naive_solver|].
      intros s' Hs'. apply HP. cbn [dict_get]. by rewrite decide_False.
Qed.

Lemma dict_set_fresh {A} k (v : A) d :
  k ∉ dict_keys d → dict_set k v d = d ++ [(k, v)].
Proof.
  unfold dict_keys. induction d as [|[k' v'] r IH]; [done|].
  rewrite fmap_cons. intros Hk. apply not_elem_of_cons in Hk as [Hne Hk].
  cbn [dict_set fst]. rewrite decide_False by done. by rewrite IH.
Qed.

Lemma file_all_values_go (acc d : list (string * Source)) :
  NoDup (dict_keys (acc ++ d)) →
  Forall (λ kv, kv.1 = source_name kv.2) d →
  file_all (dict_values d) acc = acc ++ d.
Proof.
  unfold dict_keys, dict_values, file_all.
  revert acc. induction d as [|[k s] r IH]; intros acc Hnd Hwf; simpl.
  - by rewrite app_nil_r.
  - apply Forall_cons in Hwf as [Hk Hwf]. simpl in Hk. subst k.
    rewrite dict_set_fresh.
    + rewrite IH; [by rewrite <- app_assoc| by rewrite <- app_assoc | done].
    + rewrite fmap_app in Hnd. apply NoDup_app in Hnd as (_ & Hd & _).
      intros Hin. apply (Hd _ Hin). left.
Qed.

(** Re-filing the sources of a well-formed vocabulary rebuilds its mapping. *)
Lemma file_all_values v :
  sources_wf v → file_all (dict_values (sources v)) [] = sources v.
Proof. intros [Hnd Hwf]. by apply (file_all_values_go []). Qed.

Section RdfFacts.

Variable parse_content : string → option (list (kind * string * gset string)).
Variable conflicts :
  gmap (kind * string) Element → kind * string * gset string → bool.
Variable closure :
  gmap (kind * string) (gset string) → option (gmap (kind * string) (gset string)).
Variable compatibly_changed : Element → gset string → bool.

Local Abbreviation rparse := (rdf_parse_source_into_vocabulary parse_content conflicts).
Local Abbreviation rpost := (rdf_post_process_vocabulary closure compatibly_changed).
Local Abbreviation radd :=
  (rdf_add_ontology_to_vocabulary_as_string
     parse_content conflicts closure compatibly_changed).

Lemma declare_all_success name ds els els' :
  declare_all conflicts name ds els = (None, els') →
  els' = declare_list ds els.
Proof.
  unfold declare_list. revert els.
  induction ds as [|d r IH]; intros els; cbn [declare_all foldl].
  - by intros [= <-].
  - destruct (conflicts els d); [done|]. apply IH.
Qed.

Lemma rdf_parse_success s v v' :
  rparse s v = (None, v') →
  elements v' =
    declare_list (default [] (parse_content (content s))) (elements v)
  ∧ sources v' = dict_set (source_name s) s (sources v).
Proof.
  unfold rdf_parse_source_into_vocabulary.
  destruct (parse_content (content s)) as [ds|]; [|done].
  destruct (declare_all conflicts (source_name s) ds (elements v))
    as [r els'] eqn:Hd.
  cbn. intros [= -> <-]. cbn. split; [|done].
  by apply (declare_all_success (source_name s)).
Qed.

Lemma rdf_parse_all_success srcs v v' :
  parse_all rparse srcs v = (None, v') →
  elements v' = declare_list (decls_of parse_content srcs) (elements v)
  ∧ sources v' = file_all srcs (sources v).
Proof.
  revert v. induction srcs as [|s r IH]; intros v; cbn [parse_all].
  - by intros [= <-].
  - destruct (rparse s v) as [[e|] v1] eqn:Hp; [done|].
    intros Hr. apply IH in Hr as [Hel Hso].
    apply rdf_parse_success in Hp as [Hel1 Hso1].
    rewrite Hel, Hso, Hel1, Hso1. split; [|done].
    unfold decls_of, declare_list. cbn [mbind list_bind].
    by rewrite foldl_app.
Qed.

Lemma elem_of_decls_of srcs d :
  d ∈ decls_of parse_content srcs
  ↔ ∃ c, c ∈ content <$> srcs ∧ d ∈ default [] (parse_content c).
Proof.
  unfold decls_of. rewrite list_elem_of_bind. split.
  - intros (s & Hd & Hs). exists (content s). split; [|done].
    apply list_elem_of_fmap. by exists s.
  - intros (c & (s & -> & Hs)%list_elem_of_fmap & Hd). by exists s.
Qed.

Lemma rdf_post_success v old v' :
  rpost v old = (None, v') →
  sources v' = sources v
  ∧ ∃ cl, closure (facts <$> elements v) = Some cl
      ∧ ∀ key,
          elements v' !! key =
            (λ e, {| facts := facts e;
                     derived := default ∅ (cl !! key);
                     settings := carried_settings compatibly_changed
                                   (elements old) key e |})
              <$> elements v !! key.
Proof.
  unfold rdf_post_process_vocabulary.
  destruct (closure (facts <$> elements v)) as [cl|]; [|done].
  intros [= <-]. cbn. split; [done|]. exists cl. split; [done|].
  intros key. rewrite map_lookup_imap. by destruct (elements v !! key).
Qed.

(** What a successful add has built. *)
Lemma rdf_add_return_inv vocabulary old name text w l w' :
  heap w !! vocabulary = Some old →
  radd vocabulary name text w = (Return l, w') →
  ∃ raw v,
    heap w' !! l = Some v
    ∧ rpost raw old = (None, v)
    ∧ elements raw =
        declare_list
          (decls_of parse_content
             (dict_values (sources old)
              ++ [{| source_name := name; content := text;
                     timestamp := clock w |}])) ∅
    ∧ sources v =
        dict_set name
          {| source_name := name; content := text; timestamp := clock w |}
          (file_all (dict_values (sources old)) []).
Proof.
  intros Hold Hrun.
  unfold rdf_add_ontology_to_vocabulary_as_string in Hrun.
  rewrite add_as_string_unfold in Hrun.
  apply (parse_sources_return_inv _ _ _ _ _ _ _ _ Hold) in Hrun
    as (raw & v & Hparse & Hpost & -> & Hheap).
  exists raw, v. apply rdf_parse_all_success in Hparse as [Hel Hso].
  split_and!; [| done | done |].
  - rewrite Hheap. by apply list_lookup_middle.
  - apply rdf_post_success in Hpost as [-> _]. rewrite Hso.
    unfold file_all. by rewrite foldl_app.
Qed.


Lemma raw_elements_ext srcs1 srcs2 :
  (∀ c, c ∈ content <$> srcs1 ↔ c ∈ content <$> srcs2) →
  declare_list (decls_of parse_content srcs1) ∅
  = declare_list (decls_of parse_content srcs2) ∅.
Proof.
  intros Hc. apply declare_list_ext. intros d.
  rewrite !elem_of_decls_of. naive_solver.
Qed.

Lemma rdf_post_same_raw raw1 old1 v1 raw2 old2 v2 :
  rpost raw1 old1 = (None, v1) →
  rpost raw2 old2 = (None, v2) →
  elements raw1 = elements raw2 →
  element_facts v1 = element_facts v2.
Proof.
  intros (_ & cl1 & Hcl1 & H1)%rdf_post_success
         (_ & cl2 & Hcl2 & H2)%rdf_post_success Heq.
  rewrite Heq in Hcl1, H1. rewrite Hcl1 in Hcl2. injection Hcl2 as ->.
  apply map_eq. intros key. unfold element_facts.
  rewrite !lookup_fmap, H1, H2. by destruct (elements raw2 !! key).
Qed.



(** C7, amended.  Let [A] and [B] declare disjoint identifiers, and let the
    prior vocabulary file its sources under their names and hold no source
    named as [A] or [B] with another content.  When the adds succeed in both
    orders, [A] then [B] yields the same elements with the same facts and
    derived properties as [B] then [A].  (The proof does not use the
    disjointness: a merge is a union.) *)
Theorem order_of_two_new_sources_is_irrelevant
    vocabulary V0 nameA textA nameB textB w
    lA wA wA' lAB wAB lB wB wB' lBA wBA :
  Forall (λ da, Forall (λ db, da.1.2 ≠ db.1.2)
                  (default [] (parse_content textB)))
    (default [] (parse_content textA)) →
  heap w !! vocabulary = Some V0 →
  sources_wf V0 →
  no_other_content nameA textA (sources V0) →
  no_other_content nameB textB (sources V0) →
  radd vocabulary nameA textA w = (Return lA, wA) →
  heap wA' !! lA = heap wA !! lA →
  radd lA nameB textB wA' = (Return lAB, wAB) →
  radd vocabulary nameB textB w = (Return lB, wB) →
  heap wB' !! lB = heap wB !! lB →
  radd lB nameA textA wB' = (Return lBA, wBA) →
  ∃ VAB VBA,
    heap wAB !! lAB = Some VAB ∧ heap wBA !! lBA = Some VBA
    ∧ element_facts VAB = element_facts VBA.
Proof.
  intros _ Hold Hwf HotherA HotherB HrunA HsameA HrunAB HrunB HsameB HrunBA.
  destruct (rdf_add_return_inv _ _ _ _ _ _ _ Hold HrunA)
    as (rawA & VA & HVA & _ & _ & HsrcA).
  destruct (rdf_add_return_inv _ _ _ _ _ _ _ Hold HrunB)
    as (rawB & VB & HVB & _ & _ & HsrcB).
  rewrite HVA in HsameA. rewrite HVB in HsameB.
  destruct (rdf_add_return_inv _ _ _ _ _ _ _ HsameA HrunAB)
    as (rawAB & VAB & HVAB & HpostAB & HrawAB & _).
  destruct (rdf_add_return_inv _ _ _ _ _ _ _ HsameB HrunBA)
    as (rawBA & VBA & HVBA & HpostBA & HrawBA & _).
  exists VAB, VBA. split_and!; [done|done|].
  rewrite (file_all_values _ Hwf) in HsrcA, HsrcB.
  apply (rdf_post_same_raw _ _ _ _ _ _ HpostAB HpostBA).
  rewrite HrawAB, HrawBA. apply raw_elements_ext. intros c.
  rewrite HsrcA, HsrcB, !fmap_app, !elem_of_app, !dict_set_contents by done.
  cbn. rewrite !list_elem_of_singleton. naive_solver.
Qed.

End RdfFacts.

(** * Facts about the notification model *)

Module NotificationFacts.
Import Notification.

Lemma all_None_in_spec keys values :
  all_None_in keys values = true
  ↔ ∀ k, k ∈ keys → is_set values k = false.
Proof.
  unfold all_None_in, is_set. rewrite forallb_forall. split.
  - intros H k Hk. destruct (values !! k) as [v|] eqn:Hv; [|done].
    specialize (H (k, v)). cbn in H. rewrite H; [done|].
    apply filter_In. split.
    + apply list_elem_of_In, elem_of_map_to_list. done.
    + by apply bool_decide_eq_true.
  - intros H [k v] [Hin Hk]%filter_In.
    apply list_elem_of_In, elem_of_map_to_list in Hin.
    apply bool_decide_eq_true in Hk. cbn in *.
    specialize (H k Hk). rewrite Hin in H. by destruct (is_None v).
Qed.

Lemma all_None_in_alt keys values :
  all_None_in keys values = forallb (λ k, negb (is_set values k)) keys.
Proof.
  apply eq_true_iff_eq. rewrite all_None_in_spec, forallb_forall.
  split.
  - intros H k Hk%list_elem_of_In. by rewrite H.
  - intros H k Hk%list_elem_of_In. apply H in Hk.
    by destruct (is_set values k).
Qed.

Lemma is_set_lookup values k v :
  values !! k = Some v → is_set values k = negb (is_None v).
Proof. unfold is_set. by intros ->. Qed.

Lemma is_set_missing values k :
  values !! k = None → is_set values k = false.
Proof. unfold is_set. by intros ->. Qed.

(** When the three fields it reads are present, the root validator accepts
    exactly the values with at most one endpoint. *)
Lemma validate_endpoints_spec values :
  is_Some (values !! "http") →
  is_Some (values !! "httpCustom") →
  is_Some (values !! "mqtt") →
  validate_endpoints values =
    if decide (endpoints_set values ≤ 1)%nat then inr values
    else inl (Exc AssertionError [] None).
Proof.
  intros [h Hh] [hc Hhc] [m Hm].
  unfold validate_endpoints, getitem, asserting, endpoints_set, endpoint_names.
  rewrite Hh, Hhc, Hm, !all_None_in_alt. cbn [forallb List.filter].
  rewrite (is_set_lookup _ _ _ Hh), (is_set_lookup _ _ _ Hhc),
    (is_set_lookup _ _ _ Hm).
  destruct (is_set values "mqttCustom"), (is_None h), (is_None hc), (is_None m);
    reflexivity.
Qed.

(** Whatever is present, values the root validator returns have at most one
    endpoint. *)
Lemma validate_endpoints_ok values values' :
  validate_endpoints values = inr values' →
  values' = values ∧ (endpoints_set values ≤ 1)%nat.
Proof.
  unfold validate_endpoints, getitem, asserting, endpoints_set, endpoint_names.
  rewrite !all_None_in_alt. cbn [forallb List.filter].
  destruct (values !! "http") as [h|] eqn:Hh; [|done].
  rewrite (is_set_lookup _ _ _ Hh).
  destruct (is_None h); cbn [negb].
  - destruct (values !! "httpCustom") as [hc|] eqn:Hhc; [|done].
    rewrite (is_set_lookup _ _ _ Hhc).
    destruct (is_None hc); cbn [negb].
    + destruct (values !! "mqtt") as [m|] eqn:Hm; [|done].
      rewrite (is_set_lookup _ _ _ Hm).
      destruct (is_None m), (is_set values "mqttCustom"); cbn;
        intros [= <-]; split; (done || lia).
    + destruct (is_set values "mqtt"), (is_set values "mqttCustom"); cbn;
        intros [= <-]; split; (done || lia).
  - destruct (is_set values "httpCustom"), (is_set values "mqtt"),
      (is_set values "mqttCustom"); cbn; intros [= <-]; split; (done || lia).
Qed.

Lemma run_root_validator_valid values errors values' :
  run_root_validator values errors = Valid values' →
  values' = values ∧ errors = [] ∧ (endpoints_set values ≤ 1)%nat.
Proof.
  unfold run_root_validator.
  destruct (validate_endpoints values) as [e|v] eqn:Hv.
  - by destruct (collected e).
  - apply validate_endpoints_ok in Hv as [-> Hle].
    destruct errors; [|done]. by intros [= <-].
Qed.

Lemma run_root_validator_valid_model input values :
  validate_model input = Valid values → (endpoints_set values ≤ 1)%nat.
Proof.
  unfold validate_model.
  destruct (validate_fields field_names input ∅ []) as [e|[vs errs]]; [done|].
  by intros (-> & _ & ?)%run_root_validator_valid.
Qed.

Lemma run_root_validator_many values errors :
  is_Some (values !! "http") →
  is_Some (values !! "httpCustom") →
  is_Some (values !! "mqtt") →
  (2 ≤ endpoints_set values)%nat →
  ∃ errs, run_root_validator values errors = ValidationError errs.
Proof.
  intros H1 H2 H3 Hle. unfold run_root_validator.
  rewrite validate_endpoints_spec by done.
  rewrite decide_False by lia. cbn. by eexists.
Qed.


Lemma validate_fields_plain name rest input values errors :
  name ≠ "httpCustom" → name ≠ "exceptAttrs" →
  validate_fields (name :: rest) input values errors =
    validate_fields rest input (<[name := given input name]> values) errors.
Proof.
  intros H1 H2. cbn [validate_fields]. unfold field_validator.
  by rewrite !decide_False by done.
Qed.

Lemma validate_fields_httpCustom rest input values errors h :
  values !! "http" = Some h →
  validate_fields ("httpCustom" :: rest) input values errors =
    if negb (is_None (given input "httpCustom")) && negb (is_None h)
    then validate_fields rest input values
           (errors ++ [Exc AssertionError [] None])
    else validate_fields rest input
           (<["httpCustom" := given input "httpCustom"]> values) errors.
Proof.
  intros Hh. cbn [validate_fields]. unfold field_validator.
  rewrite decide_True by done. unfold validate_http, getitem, given.
  rewrite Hh.
  destruct (is_None (default _ (input !! "httpCustom"))), (is_None h); done.
Qed.

Lemma validate_fields_exceptAttrs rest input values errors a :
  values !! "attrs" = Some a →
  validate_fields ("exceptAttrs" :: rest) input values errors =
    if negb (is_None (given input "exceptAttrs")) && negb (is_None a)
    then validate_fields rest input values
           (errors ++ [Exc AssertionError [] None])
    else validate_fields rest input
           (<["exceptAttrs" := given input "exceptAttrs"]> values) errors.
Proof.
  intros Ha. cbn [validate_fields]. unfold field_validator.
  rewrite decide_False by done. rewrite decide_True by done.
  unfold validate_attr, getitem, given. rewrite Ha.
  destruct (is_None (default _ (input !! "exceptAttrs"))), (is_None a); done.
Qed.

Ltac lookups :=
  repeat (rewrite lookup_insert_eq || rewrite lookup_insert_ne by done).

Lemma run_root_validator_errors values errors e :
  is_Some (values !! "http") →
  is_Some (values !! "httpCustom") →
  is_Some (values !! "mqtt") →
  ∃ errs, run_root_validator values (e :: errors) = ValidationError errs.
Proof.
  intros H1 H2 H3. unfold run_root_validator.
  rewrite validate_endpoints_spec by done.
  case_decide; cbn; by eexists.
Qed.

Lemma is_set_given input k :
  k ∈ endpoint_names → negb (is_None (given input k)) = is_set input k.
Proof.
  unfold endpoint_names, given, is_set. intros Hk.
  assert (field_default k = VNone) as ->.
  { set_unfold. by destruct Hk as [->|[->|[->|[->|[]]]]]. }
  by destruct (input !! k).
Qed.

(** Construction either fails validation or yields all the fields as
    given. *)
Lemma validate_model_cases input :
  (∃ errs, validate_model input = ValidationError errs)
  ∨ (∃ values,
       validate_model input = Valid values
       ∧ Forall (λ k, values !! k = Some (given input k)) field_names).
Proof.
  unfold validate_model, field_names.
  rewrite validate_fields_plain by done.
  rewrite (validate_fields_httpCustom _ _ _ _ (given input "http"))
    by by lookups.
  destruct (negb (is_None (given input "httpCustom"))
            && negb (is_None (given input "http"))) eqn:Hboth.
  - (* [validate_http] failed: an error is on record *)
    left. apply andb_true_iff in Hboth as [_ Hh].
    apply negb_true_iff in Hh.
    do 3 rewrite validate_fields_plain by done.
    rewrite (validate_fields_exceptAttrs _ _ _ _ (given input "attrs"))
      by by lookups.
    destruct (negb (is_None (given input "exceptAttrs"))
              && negb (is_None (given input "attrs")));
      do 2 rewrite validate_fields_plain by done;
      cbn [validate_fields app];
      unfold run_root_validator, validate_endpoints, getitem;
      lookups; rewrite Hh; unfold asserting;
      destruct (all_None_in _ _); cbn; by eexists.
  - do 3 rewrite validate_fields_plain by done.
    rewrite (validate_fields_exceptAttrs _ _ _ _ (given input "attrs"))
      by by lookups.
    destruct (negb (is_None (given input "exceptAttrs"))
              && negb (is_None (given input "attrs")));
      do 2 rewrite validate_fields_plain by done;
      cbn [validate_fields app].
    + left. apply run_root_validator_errors; lookups; eauto.
    + unfold run_root_validator.
      rewrite validate_endpoints_spec by (lookups; eauto).
      case_decide; [right|left; cbn; by eexists].
      eexists. split; [done|]. repeat constructor; by lookups.
Qed.


Lemma two_endpoints values name other :
  name ∈ endpoint_names → other ∈ endpoint_names → other ≠ name →
  is_set values name = true → is_set values other = true →
  (2 ≤ endpoints_set values)%nat.
Proof.
  unfold endpoints_set, endpoint_names. intros Hn Ho Hne Hsn Hso.
  cbn [List.filter]. set_unfold.
  destruct Hn as [->|[->|[->|[->|[]]]]];
    destruct Ho as [->|[->|[->|[->|[]]]]]; try done;
    rewrite Hsn, Hso;
    repeat match goal with
           | |- context [is_set values ?k] => destruct (is_set values k)
           end; cbn; lia.
Qed.

Lemma validate_model_many input :
  (2 ≤ endpoints_set input)%nat →
  ∃ errs, validate_model input = ValidationError errs.
Proof.
  intros Hmany.
  destruct (validate_model_cases input) as [?|(values & Hv & Hall)]; [done|].
  exfalso. apply run_root_validator_valid_model in Hv.
  assert (endpoints_set values = endpoints_set input); [|lia].
  unfold field_names in Hall. repeat apply Forall_cons in Hall as [? Hall].
  unfold endpoints_set, endpoint_names. cbn [List.filter].
  rewrite !(is_set_lookup values _ (given input _)) by done.
  rewrite !is_set_given by (unfold endpoint_names; set_solver).
  done.
Qed.

Lemma setattr_valid instance name value values :
  setattr instance name value = Valid values →
  (endpoints_set values ≤ 1)%nat.
Proof.
  unfold setattr. case_bool_decide; [|done].
  destruct (field_validator name value (delete name instance)) as [e|v'].
  - destruct (collected e); [|done].
    by intros (_ & ? & _)%run_root_validator_valid.
  - by intros (-> & _ & ?)%run_root_validator_valid.
Qed.

Lemma setattr_second_endpoint instance name value other :
  Forall (λ k, is_Some (instance !! k)) field_names →
  name ∈ endpoint_names → is_None value = false →
  other ∈ endpoint_names → other ≠ name → is_set instance other = true →
  ∃ errs, setattr instance name value = ValidationError errs.
Proof.
  intros Hall Hn Hv Ho Hne Hso.
  assert (Hin : name ∈ field_names).
  { unfold endpoint_names, field_names in *. set_solver. }
  assert (Hpresent : ∀ k, k ∈ field_names →
            is_Some (<[name := value]> instance !! k)).
  { intros k Hk. destruct (decide (name = k)) as [->|].
    - rewrite lookup_insert_eq. eauto.
    - rewrite lookup_insert_ne by done.
      by apply (proj1 (Forall_forall _ _) Hall). }
  assert (Hmany : (2 ≤ endpoints_set (<[name := value]> instance))%nat).
  { apply (two_endpoints _ name other); [done..| |].
    - unfold is_set. rewrite lookup_insert_eq. by rewrite Hv.
    - unfold is_set in *. by rewrite lookup_insert_ne. }
  assert (H3 : is_Some (<[name := value]> instance !! "http")
             ∧ is_Some (<[name := value]> instance !! "httpCustom")
             ∧ is_Some (<[name := value]> instance !! "mqtt")).
  { split_and!; apply Hpresent; unfold field_names; set_solver. }
  destruct H3 as (Hk1 & Hk2 & Hk3).
  unfold setattr. rewrite bool_decide_true by done.
  assert (Hfv : field_validator name value (delete name instance) = inr value
              ∨ field_validator name value (delete name instance)
                = inl (Exc AssertionError [] None)).
  { unfold field_validator. case_decide as Hc.
    - subst name. unfold validate_http, getitem. rewrite Hv. cbn [negb].
      rewrite lookup_delete_ne by done.
      destruct (proj1 (Forall_forall _ _) Hall "http") as [h ->].
      { unfold field_names. set_solver. }
      destruct (is_None h); cbn; eauto.
    - case_decide as Hc'; [|by left].
      subst name. unfold endpoint_names in Hn. set_solver. }
  destruct Hfv as [->| ->].
  - by apply run_root_validator_many.
  - cbn. by apply run_root_validator_errors.
Qed.

(** C10.  The values of a [Notification] that passed validation, at
    construction or after an assignment, have at most one of the fields
    [http], [httpCustom], [mqtt], [mqttCustom] set to something other than
    [None]; constructing a notification with two of them set, or assigning
    a second one to an instance, fails validation. *)
Theorem at_most_one_endpoint :
  (∀ input values,
     validate_model input = Valid values → (endpoints_set values ≤ 1)%nat)
  ∧ (∀ instance name value values,
       setattr instance name value = Valid values →
       (endpoints_set values ≤ 1)%nat)
  ∧ (∀ input,
       (2 ≤ endpoints_set input)%nat →
       ∃ errs, validate_model input = ValidationError errs)
  ∧ (∀ instance name value other,
       Forall (λ k, is_Some (instance !! k)) field_names →
       name ∈ endpoint_names → is_None value = false →
       other ∈ endpoint_names → other ≠ name →
       is_set instance other = true →
       ∃ errs, setattr instance name value = ValidationError errs).
Proof.
  split_and!.
  - intros input values. apply run_root_validator_valid_model.
  - apply setattr_valid.
  - apply validate_model_many.
  - apply setattr_second_endpoint.
Qed.

End NotificationFacts.

(** * The theorems at concrete inputs *)

(** Malformed content added to the empty vocabulary: a [TypeError] whose
    context is the syntax error. *)
Lemma failure_in_try_block_raises_TypeError_witness :
  ∃ msg w',
    parse_sources_into_vocabulary toy_parse toy_post 0
      [{| source_name := "a"; content := "!"; timestamp := 5 |}] (world0 5)
    = (Raise (Exc TypeError msg
               (Some (Exc ParseError ["syntax"; "a"] None))), w')
    ∧ exc_cls (Exc TypeError msg (Some (Exc ParseError ["syntax"; "a"] None)))
      ≠ ParsingException.
Proof.
  apply (failure_in_try_block_raises_TypeError toy_parse toy_post
           0 Vocabulary_init _ (world0 5) Vocabulary_init).
  - reflexivity.
  - reflexivity.
  - left. reflexivity.
  - reflexivity.
Defined.

(** A source [b] added to the vocabulary that holds the source [a]: [a] is
    parsed again, then [b], then the result is post-processed against the
    input, and the call returns the new reference. *)
Lemma merge_protocol_followed_witness :
  heap world_labelled !! 0 = Some labelled
  ∧ let sa := {| source_name := "a"; content := "X"; timestamp := 1 |} in
    let sb := {| source_name := "b"; content := "Y"; timestamp := 2 |} in
    let r := parse_sources_into_vocabulary toy_parse toy_post 0 [sb]
               world_labelled in
    ∃ v, merge_protocol toy_parse toy_post labelled [sb] = (None, v)
         ∧ dict_values (sources v) = [sa; sb]
         ∧ r.1 = Return 1
         ∧ heap r.2 = [labelled; v]
         ∧ trace r.2 = [EvNewVocabulary 1; EvParse sa 1; EvParse sb 1;
                        EvPostProcess 1 0].
Proof.
  split; [reflexivity|]. intros sa sb r.
  exists (merge_protocol toy_parse toy_post labelled [sb]).2.
  assert (Hm : merge_protocol toy_parse toy_post labelled [sb]
               = (None, (merge_protocol toy_parse toy_post labelled [sb]).2))
    by (vm_compute; reflexivity).
  destruct (proj1 (merge_protocol_followed toy_parse toy_post 0 labelled [sb]
                     world_labelled eq_refl) _ Hm)
    as (Hr & _ & Hh & Ht).
  split_and!; [exact Hm|vm_compute; reflexivity|exact Hr|exact Hh|exact Ht].
Defined.

(** The failed add of malformed content leaves the empty vocabulary empty. *)
Lemma failed_add_leaves_input_unchanged_witness :
  let r := toy_add 0 "a" "!" (world0 5) in
  (∃ msg, r.1 = Raise (Exc TypeError msg
                         (Some (Exc ParseError ["syntax"; "a"] None))))
  ∧ heap r.2 !! 0 = Some Vocabulary_init
  ∧ length (sources (heap r.2 !!! 0)) = length (sources Vocabulary_init)
  ∧ preserved (world0 5) r.2.
Proof.
  apply (failed_add_leaves_input_unchanged toy_parse toy_post
           0 Vocabulary_init "a" "!" (world0 5) Vocabulary_init
           (Exc ParseError ["syntax"; "a"] None) Vocabulary_init);
    reflexivity.
Defined.

(** A successful add returns reference [1] and leaves reference [0] alone. *)
Lemma configurator_does_not_mutate_input_witness :
  heap (world0 5) !! 0 = Some Vocabulary_init
  ∧ let r := toy_add 0 "a" "X" (world0 5) in
    heap r.2 !! 0 = Some Vocabulary_init ∧ preserved (world0 5) r.2
    ∧ ∀ l, r.1 = Return l → l ≠ 0 ∧ heap (world0 5) !! l = None.
Proof.
  split; [reflexivity|].
  apply (proj1 (configurator_does_not_mutate_input toy_parse toy_post
                  0 Vocabulary_init (world0 5) eq_refl)).
Defined.



(** Sources [a] declaring [X] and [b] declaring [Y], in both orders. *)
Lemma order_of_two_new_sources_is_irrelevant_witness :
  toy_add 0 "a" "X" (world0 1) = (Return 1, world_aX)
  ∧ toy_add 1 "b" "Y" world_aX = (Return 2, world_aX_bY)
  ∧ toy_add 0 "b" "Y" (world0 1) = (Return 1, world_bY)
  ∧ toy_add 1 "a" "X" world_bY = (Return 2, world_bY_aX)
  ∧ ∃ VAB VBA,
      heap world_aX_bY !! 2 = Some VAB ∧ heap world_bY_aX !! 2 = Some VBA
      ∧ element_facts VAB = element_facts VBA.
Proof.
  assert (HA : toy_add 0 "a" "X" (world0 1) = (Return 1, world_aX)).
  { vm_compute. reflexivity. }
  assert (HAB : toy_add 1 "b" "Y" world_aX = (Return 2, world_aX_bY)).
  { vm_compute. reflexivity. }
  assert (HB : toy_add 0 "b" "Y" (world0 1) = (Return 1, world_bY)).
  { vm_compute. reflexivity. }
  assert (HBA : toy_add 1 "a" "X" world_bY = (Return 2, world_bY_aX)).
  { vm_compute. reflexivity. }
  split_and!; [done..|].
  apply (order_of_two_new_sources_is_irrelevant toy_parse_content toy_conflicts
           toy_closure toy_compatibly_changed 0 Vocabulary_init
           "a" "X" "b" "Y" (world0 1)
           1 world_aX world_aX 2 world_aX_bY
           1 world_bY world_bY 2 world_bY_aX).
  - repeat constructor. discriminate.
  - reflexivity.
  - split; [apply NoDup_nil_2|apply Forall_nil_2].
  - intros s Hs. discriminate Hs.
  - intros s Hs. discriminate Hs.
  - exact HA.
  - reflexivity.
  - exact HAB.
  - exact HB.
  - reflexivity.
  - exact HBA.
Defined.


(** The same add on an empty vocabulary in two worlds read at the same time. *)
Lemma add_is_a_function_of_vocabulary_source_and_clock_witness :
  heap (world0 5) !! 0 = Some Vocabulary_init
  ∧ heap world_other !! 1 = Some Vocabulary_init
  ∧ clock (world0 5) = clock world_other
  ∧ let r1 := toy_add 0 "a" "X" (world0 5) in
    let r2 := toy_add 1 "a" "X" world_other in
    match r1.1, r2.1 with
    | Return l1, Return l2 =>
        ∃ v, heap r1.2 !! l1 = Some v ∧ heap r2.2 !! l2 = Some v
    | Raise e1, Raise e2 => e1 = e2
    | _, _ => False
    end.
Proof.
  split_and!; [reflexivity..|].
  apply (add_is_a_function_of_vocabulary_source_and_clock toy_parse toy_post
           0 1 Vocabulary_init "a" "X" (world0 5) world_other);
    reflexivity.
Defined.

(** * Where the configurator departs from the claims *)


(** C7 fails when a name is in use: on the vocabulary built from source [a]
    declaring [X], adding [a] declaring [Y] and then [b] declaring [Z] loses
    [X], while [b] and then [a] keeps it. *)
Lemma order_matters_under_a_used_name :
  toy_parse_content "Y" = Some [(Class, "Y", ∅)]
  ∧ toy_parse_content "Z" = Some [(Class, "Z", ∅)]
  ∧ toy_add 1 "a" "Y" world_aX = (Return 2, world_aX_aY)
  ∧ toy_add 2 "b" "Z" world_aX_aY = (Return 3, world_aX_aY_bZ)
  ∧ toy_add 1 "b" "Z" world_aX = (Return 2, world_aX_bZ)
  ∧ toy_add 2 "a" "Y" world_aX_bZ = (Return 3, world_aX_bZ_aY)
  ∧ element_facts (heap world_aX_aY_bZ !!! 3)
    ≠ element_facts (heap world_aX_bZ_aY !!! 3).
Proof.
  split_and!; [vm_compute; reflexivity..|].
  intros H. apply (f_equal (λ m, m !! (Class, "X"))) in H.
  vm_compute in H. discriminate H.
Qed.


(** C9 fails across time: the same add on the same vocabulary, run at two
    clock readings, returns vocabularies that differ in the timestamp of the
    new source. *)
Lemma equal_inputs_at_different_times_differ :
  heap (world0 1) = heap (world0 2)
  ∧ (toy_add 0 "a" "X" (world0 1)).1 = Return 1
  ∧ (toy_add 0 "a" "X" (world0 2)).1 = Return 1
  ∧ heap (toy_add 0 "a" "X" (world0 1)).2 !! 1
    ≠ heap (toy_add 0 "a" "X" (world0 2)).2 !! 1.
Proof.
  split_and!; [reflexivity..|].
  intros H. vm_compute in H. discriminate H.
Qed.

(** A notification over MQTT is valid; with an HTTP endpoint next to it, at
    construction or by assignment, it is not. *)
Lemma at_most_one_endpoint_witness :
  Notification.validate_model input_mqtt = Notification.Valid notification_mqtt
  ∧ (Notification.endpoints_set notification_mqtt ≤ 1)%nat
  ∧ (2 ≤ Notification.endpoints_set input_mqtt_http)%nat
  ∧ (∃ errs, Notification.validate_model input_mqtt_http
             = Notification.ValidationError errs)
  ∧ Notification.is_set notification_mqtt "mqtt" = true
  ∧ (∃ errs, Notification.setattr notification_mqtt "http" receiver
             = Notification.ValidationError errs).
Proof.
  assert (H1 : Notification.validate_model input_mqtt
               = Notification.Valid notification_mqtt)
    by (vm_compute; reflexivity).
  assert (H2 : (2 ≤ Notification.endpoints_set input_mqtt_http)%nat)
    by (vm_compute; lia).
  assert (H3 : Notification.is_set notification_mqtt "mqtt" = true)
    by (vm_compute; reflexivity).
  destruct NotificationFacts.at_most_one_endpoint as (Ha & _ & Hc & Hd).
  split_and!; [exact H1 | exact (Ha _ _ H1) | exact H2 | exact (Hc _ H2)
              | exact H3 |].
  apply (Hd notification_mqtt "http" receiver "mqtt").
  - repeat constructor; vm_compute; eauto.
  - repeat constructor.
  - reflexivity.
  - repeat constructor.
  - discriminate.
  - exact H3.
Defined.

(** * More on the configurator: how errors come out *)

Section ConfiguratorErrors.

Variable parse : Source → Vocabulary → option exception * Vocabulary.
Variable post : Vocabulary → Vocabulary → option exception * Vocabulary.

(** X1.  When re-parsing one of the sources of the prior vocabulary raises
    [e], the call raises [e] itself, whatever its class: the first loop stands
    outside the [try] block.  Only sources of the prior vocabulary have been
    handed to the parser by then; the new sources and the post-processor are
    never reached. *)
Theorem old_source_failure_propagates_unwrapped vocabulary old news w e :
  heap w !! vocabulary = Some old →
  (parse_all parse (dict_values (sources old)) Vocabulary_init).1 = Some e →
  let r := parse_sources_into_vocabulary parse post vocabulary news w in
  r.1 = Raise e
  ∧ ∃ tried,
      tried `prefix_of` dict_values (sources old)
      ∧ trace r.2
        = trace w ++ EvNewVocabulary (length (heap w))
            :: ((λ s, EvParse s (length (heap w))) <$> tried).
Proof.
  intros Hold He r. subst r.
  rewrite (parse_sources_into_vocabulary_run _ _ _ _ _ _ Hold).
  unfold merge_run. rewrite He. cbn. split; [done|].
  eexists. split; [apply attempted_prefix|done].
Qed.

(** X2.  An exception that is not an [Exception] (a keyboard interrupt),
    raised while a new source is parsed or by the post-processor, passes the
    [except Exception] handler and reaches the caller as it is. *)
Theorem non_Exception_passes_the_handler vocabulary old news w v1 e :
  heap w !! vocabulary = Some old →
  parse_all parse (dict_values (sources old)) Vocabulary_init = (None, v1) →
  (parse_all parse news v1).1 = Some e
  ∨ (∃ v2, parse_all parse news v1 = (None, v2) ∧ (post v2 old).1 = Some e) →
  is_Exception e = false →
  (parse_sources_into_vocabulary parse post vocabulary news w).1 = Raise e.
Proof.
  intros Hold H1 Hfail He.
  rewrite (parse_sources_into_vocabulary_run _ _ _ _ _ _ Hold).
  unfold merge_run. rewrite H1. cbn.
  destruct Hfail as [H2|(v2 & H2 & H3)].
  - rewrite H2. unfold escaping. by rewrite He.
  - rewrite H2. cbn. rewrite H3. unfold escaping. by rewrite He.
Qed.

Lemma parse_all_raises srcs v e :
  (parse_all parse srcs v).1 = Some e →
  ∃ s v', s ∈ srcs ∧ (parse s v').1 = Some e.
Proof.
  revert v. induction srcs as [|s r IH]; intros v; cbn [parse_all]; [done|].
  destruct (parse s v) as [[e'|] v1] eqn:Hp.
  - cbn. intros [= ->]. exists s, v. rewrite Hp. split; [left|done].
  - intros (s' & v' & Hin & Hs')%IH. exists s', v'. split; [by right|done].
Qed.

Lemma escaping_not_ParsingException e :
  exc_cls (escaping e) ≠ ParsingException.
Proof.
  unfold escaping. destruct (is_Exception e) eqn:He; [done|].
  unfold is_Exception in He. by destruct (exc_cls e).
Qed.

(** X3.  As long as the parser does not raise one itself, no call of either
    entry point ever ends with a [ParsingException]: what leaves the [try]
    block is the [TypeError] of the failed instantiation or an exception the
    handler does not catch, and the file variant adds only the error of
    [open] or [read]. *)
Theorem configurator_never_raises_ParsingException vocabulary old w :
  heap w !! vocabulary = Some old →
  (∀ s v e, (parse s v).1 = Some e → exc_cls e ≠ ParsingException) →
  (∀ name text e,
     (add_ontology_to_vocabulary_as_string parse post vocabulary name text w).1
       = Raise e →
     exc_cls e ≠ ParsingException)
  ∧ (∀ path e,
     (add_ontology_to_vocabulary_as_file parse post vocabulary path w).1
       = Raise e →
     exc_cls e ≠ ParsingException).
Proof.
  intros Hold Hparse.
  assert (Hstr : ∀ name text e,
     (add_ontology_to_vocabulary_as_string parse post vocabulary name text w).1
       = Raise e → exc_cls e ≠ ParsingException).
  { intros name text e. rewrite add_as_string_unfold.
    rewrite (parse_sources_into_vocabulary_run _ _ _ _ _ _ Hold).
    unfold merge_run.
    destruct (parse_all parse (dict_values (sources old)) Vocabulary_init)
      as [[e1|] v1] eqn:H1; cbn [fst snd].
    - intros [= <-].
      apply (f_equal fst) in H1.
      apply parse_all_raises in H1 as (s & v' & _ & Hs). by eapply Hparse.
    - destruct (parse_all parse _ v1) as [[e2|] v2]; cbn [fst snd].
      + intros [= <-]. apply escaping_not_ParsingException.
      + destruct (post v2 old) as [[e3|] v3]; cbn [fst snd]; [|done].
        intros [= <-]. apply escaping_not_ParsingException. }
  split; [done|]. intros path e.
  destruct (files w !! path) as [text|] eqn:Hf.
  - rewrite (add_as_file_present _ _ _ _ _ _ Hf). apply Hstr.
  - rewrite (add_as_file_missing _ _ _ _ _ Hf). intros [= <-].
    by destruct (failure_of w path).
Qed.

(** X7.  The first add to a vocabulary just made by [create_vocabulary]:
    the created vocabulary is new and empty and nothing else changes; the add
    then re-parses nothing, hands exactly the new source to the parser, on an
    empty vocabulary, and post-processes against the empty one; its outcome is
    decided by these two calls alone. *)
Theorem first_add_parses_only_the_new_source name text w :
  let l0 := length (heap w) in
  let w0 := (create_vocabulary w).2 in
  let src := {| source_name := name; content := text; timestamp := clock w |} in
  let r := add_ontology_to_vocabulary_as_string parse post l0 name text w0 in
  (create_vocabulary w).1 = Return l0
  ∧ heap w !! l0 = None
  ∧ heap w0 !! l0 = Some Vocabulary_init
  ∧ preserved w w0
  ∧ r.1 = match parse src Vocabulary_init with
          | (Some e, _) => Raise (escaping e)
          | (None, v) =>
              match post v Vocabulary_init with
              | (Some e, _) => Raise (escaping e)
              | (None, _) => Return (S l0)
              end
          end
  ∧ (∃ rest, trace r.2
             = trace w0 ++ EvNewVocabulary (S l0) :: EvParse src (S l0) :: rest
             ∧ (rest = [] ∨ rest = [EvPostProcess (S l0) l0]))
  ∧ (∀ v v', parse src Vocabulary_init = (None, v) →
             post v Vocabulary_init = (None, v') →
             heap r.2 !! S l0 = Some v').
Proof.
  intros l0 w0 src r.
  assert (H0 : heap w0 !! l0 = Some Vocabulary_init).
  { subst w0 l0. cbn. by apply list_lookup_middle. }
  assert (Hlen : length (heap w0) = S l0).
  { subst w0 l0. cbn. rewrite length_app. cbn. lia. }
  split_and!; [reflexivity|by apply lookup_ge_None|exact H0| | | |].
  - intros l v Hl. subst w0. cbn. by apply lookup_app_l_Some.
  - subst r src. rewrite add_as_string_unfold.
    rewrite (parse_sources_into_vocabulary_run _ _ _ _ _ _ H0).
    unfold merge_run. cbn [sources Vocabulary_init dict_values fmap list_fmap
      parse_all fst snd]. rewrite Hlen.
    destruct (parse _ Vocabulary_init) as [[e|] v]; cbn [fst snd]; [done|].
    by destruct (post v Vocabulary_init) as [[e|] v'].
  - subst r src. rewrite add_as_string_unfold.
    rewrite (parse_sources_into_vocabulary_run _ _ _ _ _ _ H0).
    unfold merge_run. cbn [sources Vocabulary_init dict_values fmap list_fmap
      parse_all attempted fst snd]. rewrite Hlen.
    destruct (parse _ Vocabulary_init) as [[e|] v]; cbn [fst snd trace].
    + eexists. split; [done|]. by left.
    + eexists. split; [done|]. by right.
  - intros v v' Hp Hq. subst r src. rewrite add_as_string_unfold.
    rewrite (parse_sources_into_vocabulary_run _ _ _ _ _ _ H0).
    unfold merge_run. cbn [sources Vocabulary_init dict_values fmap list_fmap
      parse_all fst snd].
    change (clock w0) with (clock w). rewrite Hp. cbn [fst snd].
    rewrite Hq. cbn [fst snd heap].
    rewrite <- Hlen. by apply list_lookup_middle.
Qed.

End ConfiguratorErrors.

(** * More on the file variant: the name and the content of the source *)

Lemma append_nil_l (b : string) : "" +:+ b = b.
Proof. reflexivity. Qed.

Lemma append_cons x (a b : string) : String x a +:+ b = String x (a +:+ b).
Proof. reflexivity. Qed.

Lemma append_nil_r (a : string) : a +:+ "" = a.
Proof.
  induction a as [|x a IH]; [done|]. by rewrite append_cons, IH.
Qed.

Lemma append_assoc (a b c : string) : (a +:+ b) +:+ c = a +:+ (b +:+ c).
Proof.
  induction a as [|x a IH]; [done|]. by rewrite !append_cons, IH.
Qed.

Lemma chars_app a b :
  list_ascii_of_string (a +:+ b)
  = list_ascii_of_string a ++ list_ascii_of_string b.
Proof.
  induction a as [|c a IH]; [done|].
  rewrite append_cons. cbn [list_ascii_of_string]. by rewrite IH.
Qed.

Lemma str_remove_app c a b :
  str_remove c (a +:+ b) = str_remove c a +:+ str_remove c b.
Proof.
  induction a as [|x a IH]; [done|].
  rewrite append_cons. cbn [str_remove].
  destruct (Ascii.eqb x c); by rewrite ?append_cons, IH.
Qed.

Lemma str_remove_not_in c s : c ∉ list_ascii_of_string (str_remove c s).
Proof.
  induction s as [|x s IH]; cbn [str_remove list_ascii_of_string];
    [apply not_elem_of_nil|].
  destruct (Ascii.eqb_spec x c) as [->|Hne]; [done|].
  cbn [list_ascii_of_string]. apply not_elem_of_cons. split; [congruence|done].
Qed.

Lemma str_split_head_not_in c s :
  c ∉ list_ascii_of_string (str_split_head c s).
Proof.
  induction s as [|x s IH]; cbn [str_split_head list_ascii_of_string];
    [apply not_elem_of_nil|].
  destruct (Ascii.eqb_spec x c) as [->|Hne]; [apply not_elem_of_nil|].
  cbn [list_ascii_of_string]. apply not_elem_of_cons. split; [congruence|done].
Qed.

Lemma str_split_head_subset c s x :
  x ∈ list_ascii_of_string (str_split_head c s) → x ∈ list_ascii_of_string s.
Proof.
  induction s as [|y s IH]; cbn [str_split_head list_ascii_of_string]; [done|].
  destruct (Ascii.eqb y c); cbn [list_ascii_of_string].
  - by intros ?%elem_of_nil.
  - intros [->|?]%elem_of_cons; [left|right; auto].
Qed.

Lemma str_split_head_stem c stem rest :
  c ∉ list_ascii_of_string stem →
  str_split_head c (stem +:+ String c rest) = stem.
Proof.
  induction stem as [|x stem IH]; cbn [list_ascii_of_string].
  - intros _. rewrite append_nil_l. cbn [str_split_head].
    by rewrite Ascii.eqb_refl.
  - intros [Hne Hin]%not_elem_of_cons.
    rewrite append_cons. cbn [str_split_head].
    destruct (Ascii.eqb_spec x c) as [->|_]; [done|]. by rewrite IH.
Qed.

Lemma str_split_head_id c s :
  c ∉ list_ascii_of_string s → str_split_head c s = s.
Proof.
  induction s as [|x s IH]; cbn [str_split_head list_ascii_of_string]; [done|].
  intros [Hne Hin]%not_elem_of_cons.
  destruct (Ascii.eqb_spec x c) as [->|_]; [done|]. by rewrite IH.
Qed.

Lemma basename_go_app cur a b :
  basename_go cur (a +:+ b) = basename_go (basename_go cur a) b.
Proof.
  revert cur. induction a as [|x a IH]; intros cur; [done|].
  rewrite append_cons. cbn [basename_go].
  destruct (Ascii.eqb x "/"); apply IH.
Qed.

Lemma basename_go_plain cur s :
  "/"%char ∉ list_ascii_of_string s → basename_go cur s = cur +:+ s.
Proof.
  revert cur.
  induction s as [|x s IH]; intros cur; cbn [basename_go list_ascii_of_string].
  - intros _. by rewrite append_nil_r.
  - intros [Hne Hin]%not_elem_of_cons.
    destruct (Ascii.eqb_spec x "/") as [->|_]; [done|].
    rewrite IH by done. by rewrite append_assoc.
Qed.

Lemma basename_go_not_in cur p :
  "/"%char ∉ list_ascii_of_string cur →
  "/"%char ∉ list_ascii_of_string (basename_go cur p).
Proof.
  revert cur. induction p as [|x p IH]; intros cur Hcur; cbn [basename_go];
    [done|].
  destruct (Ascii.eqb_spec x "/") as [->|Hne].
  - apply IH, not_elem_of_nil.
  - apply IH. rewrite chars_app. cbn [list_ascii_of_string].
    intros [?|Hin]%elem_of_app; [done|].
    apply list_elem_of_singleton in Hin. congruence.
Qed.

(** The base name of a path that ends in a slash-free name after a slash. *)
Lemma os_path_basename_join dir name :
  "/"%char ∉ list_ascii_of_string name →
  os_path_basename (dir +:+ String "/" name) = name.
Proof.
  intros Hname. unfold os_path_basename. rewrite basename_go_app.
  cbn [basename_go]. rewrite Ascii.eqb_refl. by rewrite basename_go_plain.
Qed.

Lemma str_remove_join c parts :
  Forall (λ l, c ∉ list_ascii_of_string l) parts →
  str_remove c (str_join (String c "") parts) = str_join "" parts.
Proof.
  induction parts as [|x r IH]; [done|].
  intros [Hx Hr]%Forall_cons. destruct r as [|y r].
  - cbn [str_join]. by apply str_remove_id.
  - change (str_join (String c "") (x :: y :: r))
      with (x +:+ String c "" +:+ str_join (String c "") (y :: r)).
    change (str_join "" (x :: y :: r)) with (x +:+ "" +:+ str_join "" (y :: r)).
    rewrite !str_remove_app, IH by done.
    rewrite str_remove_id by done. cbn [str_remove]. by rewrite Ascii.eqb_refl.
Qed.

Section FileVariant.

Variable parse : Source → Vocabulary → option exception * Vocabulary.
Variable post : Vocabulary → Vocabulary → option exception * Vocabulary.

(** X4.  Whatever the path and the text of a readable file, the source the
    file variant hands to the merge has a name without dot and without slash,
    a content without newline and the current time as timestamp. *)
Theorem file_source_has_a_plain_name_and_one_line vocabulary path text w :
  files w !! path = Some text →
  ∃ src,
    add_ontology_to_vocabulary_as_file parse post vocabulary path w
    = parse_sources_into_vocabulary parse post vocabulary [src] w
    ∧ ("."%char ∉ list_ascii_of_string (source_name src))
    ∧ ("/"%char ∉ list_ascii_of_string (source_name src))
    ∧ (newline ∉ list_ascii_of_string (content src))
    ∧ timestamp src = clock w.
Proof.
  intros Hf.
  exists {| source_name := str_split_head "." (os_path_basename path);
            content := str_remove newline text; timestamp := clock w |}.
  split_and!.
  - by rewrite (add_as_file_present _ _ _ _ _ _ Hf).
  - apply str_split_head_not_in.
  - intros Hin%str_split_head_subset. revert Hin.
    apply basename_go_not_in, not_elem_of_nil.
  - apply str_remove_not_in.
  - done.
Qed.

(** X5.  For a file [dir/stem.ext], where [stem] has neither slash nor dot
    and [ext] has no slash, the source name is [stem]; so it is for
    [dir/stem].  Files that differ in directory or extension only are added
    under one name. *)
Theorem file_source_name_is_the_stem vocabulary dir stem ext text w :
  "/"%char ∉ list_ascii_of_string stem →
  "."%char ∉ list_ascii_of_string stem →
  "/"%char ∉ list_ascii_of_string ext →
  (files w !! (dir +:+ String "/" (stem +:+ String "." ext)) = Some text →
   add_ontology_to_vocabulary_as_file parse post vocabulary
     (dir +:+ String "/" (stem +:+ String "." ext)) w
   = add_ontology_to_vocabulary_as_string parse post vocabulary
       stem (str_remove newline text) w)
  ∧ (files w !! (dir +:+ String "/" stem) = Some text →
     add_ontology_to_vocabulary_as_file parse post vocabulary
       (dir +:+ String "/" stem) w
     = add_ontology_to_vocabulary_as_string parse post vocabulary
         stem (str_remove newline text) w).
Proof.
  intros Hs1 Hs2 He. split; intros Hf.
  - rewrite (add_as_file_present _ _ _ _ _ _ Hf).
    rewrite os_path_basename_join.
    + by rewrite str_split_head_stem.
    + rewrite chars_app. cbn [list_ascii_of_string].
      intros [?|[?|?]%elem_of_cons]%elem_of_app; done.
  - rewrite (add_as_file_present _ _ _ _ _ _ Hf).
    rewrite os_path_basename_join by done. by rewrite str_split_head_id.
Qed.

(** X6.  The content parsed from a file is its lines glued together: for a
    text that is the lines joined by newlines, the file variant adds the
    concatenation of the lines without any separator. *)
Theorem file_content_is_the_lines_glued vocabulary path lines w :
  Forall (λ l, newline ∉ list_ascii_of_string l) lines →
  files w !! path = Some (str_join (String newline "") lines) →
  add_ontology_to_vocabulary_as_file parse post vocabulary path w
  = add_ontology_to_vocabulary_as_string parse post vocabulary
      (str_split_head "." (os_path_basename path)) (str_join "" lines) w.
Proof.
  intros Hl Hf. rewrite (add_as_file_present _ _ _ _ _ _ Hf).
  by rewrite str_remove_join.
Qed.

End FileVariant.

(** * More on the notification model: what is accepted, exactly *)

Module NotificationMore.
Import Notification NotificationFacts.


Lemma is_set_insert instance name value k :
  is_set (<[name := value]> instance) k
  = if decide (name = k) then negb (is_None value) else is_set instance k.
Proof.
  unfold is_set. case_decide as Hk.
  - subst k. by rewrite lookup_insert_eq.
  - by rewrite lookup_insert_ne.
Qed.


Lemma endpoints_set_insert_other instance name value :
  name ∉ endpoint_names →
  endpoints_set (<[name := value]> instance) = endpoints_set instance.
Proof.
  unfold endpoints_set, endpoint_names. intros Hn. cbn [List.filter].
  rewrite !is_set_insert.
  repeat (rewrite decide_False; [|intros ->; apply Hn; set_solver]). done.
Qed.

Lemma endpoints_set_insert instance name value :
  name ∈ endpoint_names →
  (endpoints_set (<[name := value]> instance)
   + (if is_set instance name then 1 else 0)
   = endpoints_set instance + (if is_None value then 0 else 1))%nat.
Proof.
  unfold endpoints_set, endpoint_names. intros Hn. cbn [List.filter].
  rewrite !is_set_insert. set_unfold.
  destruct Hn as [->|[->|[->|[->|[]]]]];
    repeat (case_decide; try done);
    destruct (is_None value);
    repeat match goal with
           | |- context [is_set instance ?k] => destruct (is_set instance k)
           end; cbn; lia.
Qed.



Lemma field_validator_delete instance name value :
  Forall (λ k, is_Some (instance !! k)) field_names →
  field_validator name value (delete name instance) =
    if (bool_decide (name = "httpCustom") && negb (is_None value)
        && is_set instance "http")
       || (bool_decide (name = "exceptAttrs") && negb (is_None value)
           && is_set instance "attrs")
    then inl (Exc AssertionError [] None)
    else inr value.
Proof.
  intros Hall. unfold field_names in Hall.
  repeat apply Forall_cons in Hall as [? Hall].
  unfold field_validator. case_decide as Hc.
  - subst name. rewrite bool_decide_true by done.
    rewrite (bool_decide_false ("httpCustom" = "exceptAttrs")) by done.
    unfold validate_http, getitem. rewrite lookup_delete_ne by done.
    destruct (instance !! "http") as [h|] eqn:Hh; [|by destruct H].
    rewrite (is_set_lookup _ _ _ Hh).
    by destruct (is_None value), (is_None h).
  - rewrite (bool_decide_false (name = "httpCustom")) by done.
    case_decide as Hc'.
    + subst name. rewrite bool_decide_true by done.
      unfold validate_attr, getitem. rewrite lookup_delete_ne by done.
      destruct (instance !! "attrs") as [a|] eqn:Ha; [|by destruct H3].
      rewrite (is_set_lookup _ _ _ Ha).
      by destruct (is_None value), (is_None a).
    + by rewrite bool_decide_false by done.
Qed.

Lemma insert_present (instance : gmap string field_value) name value :
  Forall (λ k, is_Some (instance !! k)) field_names →
  is_Some (<[name := value]> instance !! "http")
  ∧ is_Some (<[name := value]> instance !! "httpCustom")
  ∧ is_Some (<[name := value]> instance !! "mqtt").
Proof.
  intros Hall. unfold field_names in Hall.
  repeat apply Forall_cons in Hall as [? Hall].
  split_and!;
    match goal with
    | |- is_Some (_ !! ?k) =>
        destruct (decide (name = k)) as [->|];
        [rewrite lookup_insert_eq; eauto | by rewrite lookup_insert_ne]
    end.
Qed.

(** What an assignment does, by the conditions the validators check. *)
Lemma setattr_full instance name value :
  Forall (λ k, is_Some (instance !! k)) field_names →
  name ∈ field_names →
  ((endpoints_set (<[name := value]> instance) ≤ 1)%nat
   ∧ ¬ (name = "exceptAttrs" ∧ is_None value = false
        ∧ is_set instance "attrs" = true)
   ∧ setattr instance name value = Valid (<[name := value]> instance))
  ∨ (((2 ≤ endpoints_set (<[name := value]> instance))%nat
      ∨ (name = "exceptAttrs" ∧ is_None value = false
         ∧ is_set instance "attrs" = true))
     ∧ ∃ errs, setattr instance name value = ValidationError errs).
Proof.
  intros Hall Hin.
  destruct (insert_present instance name value Hall) as (Hk1 & Hk2 & Hk3).
  unfold setattr. rewrite bool_decide_true by done.
  rewrite field_validator_delete by done.
  destruct (bool_decide (name = "httpCustom") && negb (is_None value)
            && is_set instance "http") eqn:Hhc; cbn [orb].
  { right. apply andb_true_iff in Hhc as [[Hn Hv]%andb_true_iff Hh].
    apply bool_decide_eq_true in Hn as ->. cbn [collected exc_cls].
    split; [|by apply run_root_validator_errors]. left.
    apply (two_endpoints _ "httpCustom" "http");
      [unfold endpoint_names; set_solver..|done| |].
    - rewrite is_set_insert. by rewrite decide_True.
    - rewrite is_set_insert. by rewrite decide_False. }
  destruct (bool_decide (name = "exceptAttrs") && negb (is_None value)
            && is_set instance "attrs") eqn:Hea.
  { right. apply andb_true_iff in Hea as [[Hn Hv]%andb_true_iff Ha].
    apply bool_decide_eq_true in Hn as ->. cbn [collected exc_cls].
    split; [|by apply run_root_validator_errors]. right.
    split_and!; [done| |done]. by apply negb_true_iff. }
  unfold run_root_validator. rewrite validate_endpoints_spec by done.
  destruct (decide (endpoints_set (<[name := value]> instance) ≤ 1)%nat)
    as [Hle|Hle].
  - left. split_and!; [done| |done]. intros (-> & Hv & Ha).
    rewrite bool_decide_true, Hv, Ha in Hea by done. done.
  - right. split; [left; lia|]. cbn. by eexists.
Qed.


(** X10.  The exclusion of [attrs] and [exceptAttrs] is checked by the
    validator of [exceptAttrs] only: on a valid instance with [exceptAttrs]
    set, assigning a list to [attrs] succeeds and leaves both set. *)
Theorem attrs_assignment_is_not_checked instance names :
  Forall (λ k, is_Some (instance !! k)) field_names →
  (endpoints_set instance ≤ 1)%nat →
  is_set instance "exceptAttrs" = true →
  setattr instance "attrs" (VStrList names)
  = Valid (<["attrs" := VStrList names]> instance)
  ∧ is_set (<["attrs" := VStrList names]> instance) "attrs" = true
  ∧ is_set (<["attrs" := VStrList names]> instance) "exceptAttrs" = true.
Proof.
  intros Hall Hle Hea.
  assert (Hin : "attrs" ∈ field_names) by (unfold field_names; set_solver).
  destruct (setattr_full instance "attrs" (VStrList names) Hall Hin)
    as [(_ & _ & ->)|([Hbad|(? & _)] & _)]; [|exfalso..].
  - split_and!; [done| |].
    + rewrite is_set_insert. by rewrite decide_True.
    + rewrite is_set_insert. by rewrite decide_False.
  - rewrite endpoints_set_insert_other in Hbad; [lia|].
    unfold endpoint_names. set_solver.
  - done.
Qed.

(** X11.  To move a valid notification from one endpoint to another, the
    old one has to be cleared first: assigning the new endpoint directly
    fails, assigning [None] to the old one succeeds, and the new endpoint can
    then be assigned, which leaves exactly one endpoint. *)
Theorem switching_endpoints_needs_a_clear instance f g value :
  Forall (λ k, is_Some (instance !! k)) field_names →
  f ∈ endpoint_names → g ∈ endpoint_names → g ≠ f →
  is_set instance f = true →
  (endpoints_set instance ≤ 1)%nat →
  is_None value = false →
  (∃ errs, setattr instance g value = ValidationError errs)
  ∧ setattr instance f VNone = Valid (<[f := VNone]> instance)
  ∧ setattr (<[f := VNone]> instance) g value
    = Valid (<[g := value]> (<[f := VNone]> instance))
  ∧ endpoints_set (<[g := value]> (<[f := VNone]> instance)) = 1%nat.
Proof.
  intros Hall Hf Hg Hne Hset Hle Hv.
  assert (Hfields : ∀ k, k ∈ endpoint_names → k ∈ field_names).
  { unfold endpoint_names, field_names. set_solver. }
  assert (Hall' : Forall (λ k, is_Some (<[f := VNone]> instance !! k))
                    field_names).
  { apply Forall_forall. intros k Hk.
    destruct (decide (f = k)) as [->|].
    - rewrite lookup_insert_eq. eauto.
    - rewrite lookup_insert_ne by done.
      by apply (proj1 (Forall_forall _ _) Hall). }
  pose proof (endpoints_set_insert instance f VNone Hf) as E1.
  rewrite Hset in E1. cbn [is_None] in E1.
  pose proof (endpoints_set_insert (<[f := VNone]> instance) g value Hg) as E2.
  rewrite is_set_insert, decide_False, Hv in E2 by done.
  assert (Hg0 : is_set instance g = false).
  { destruct (is_set instance g) eqn:Eg; [|done].
    pose proof (two_endpoints instance f g Hf Hg Hne Hset Eg). lia. }
  rewrite Hg0 in E2.
  split_and!.
  - by apply (setattr_second_endpoint instance g value f).
  - destruct (setattr_full instance f VNone Hall (Hfields _ Hf))
      as [(_ & _ & ->)|([Hbad|(-> & _)] & _)]; [done|lia|].
    unfold endpoint_names in Hf. set_solver.
  - destruct (setattr_full (<[f := VNone]> instance) g value Hall'
                (Hfields _ Hg))
      as [(_ & _ & ->)|([Hbad|(-> & _)] & _)]; [done|lia|].
    unfold endpoint_names in Hg. set_solver.
  - lia.
Qed.

End NotificationMore.

(** * The master client: secrets and authentication *)

Module ClientFacts.
Import Client.

Section WithValues.

Context {V : Type}.
Variable json_load : string → error + gmap string V.

(** X12.  Assigning to [secrets] merges: every key of the assigned mapping
    reads back with its new value and every other key keeps the value it had;
    only after [del client.secrets] does an assignment leave exactly the
    assigned mapping. *)
Theorem assigning_secrets_merges (d data : gmap string V) (st : state V) :
  secrets_attr st = Some d →
  let st1 := (secrets_set data st).2 in
  let st2 := (secrets_set data (secrets_del st).2).2 in
  (secrets_set data st).1 = inr tt
  ∧ (∃ d1, (secrets_get st1).1 = inr d1
       ∧ (∀ k v, data !! k = Some v → d1 !! k = Some v)
       ∧ (∀ k, data !! k = None → d1 !! k = d !! k))
  ∧ (secrets_get st2).1 = inr data.
Proof.
  intros Hd st1 st2. subst st1 st2.
  unfold secrets_set, secrets_get, secrets_del, the_secrets. rewrite Hd.
  cbn. split_and!; [done| |by rewrite (right_id_L ∅ (∪))].
  exists (data ∪ d). split_and!; [done| |].
  - intros k v Hk. by apply lookup_union_Some_l.
  - intros k Hk. by apply lookup_union_r.
Qed.



Lemma http_auth_spec (make : V → V → auth V) (st : state V) :
  let r := http_auth make st in
  session r.2 = length (sessions st)
  ∧ sessions st !! session r.2 = None
  ∧ (∀ l s, sessions st !! l = Some s → sessions r.2 !! l = Some s)
  ∧ (∀ k, r.1 ≠ inl (KeyError k))
  ∧ (is_Some (secrets_attr st) → r.1 = inr tt)
  ∧ session_auth <$> sessions r.2 !! session r.2
    = Some match secrets_attr st with
           | Some d =>
               match d !! "username", d !! "password" with
               | Some u, Some p => Some (make u p)
               | _, _ => None
               end
           | None => None
           end.
Proof.
  intros r. subst r. unfold http_auth, the_secrets, subscript.
  cbn [replace_session secrets_attr].
  assert (Hnew : (sessions st ++ [new_Session]) !! length (sessions st)
                 = Some new_Session) by by apply list_lookup_middle.
  assert (Hold : ∀ l s, sessions st !! l = Some s →
                        (sessions st ++ [new_Session]) !! l = Some s)
    by (intros l s; apply lookup_app_l_Some).
  assert (Hfresh : sessions st !! length (sessions st) = None)
    by by apply lookup_ge_None.
  destruct (secrets_attr st) as [d|]; cbn.
  2: { split_and!; [done|done|done|done|by intros [? [=]]|by rewrite Hnew]. }
  destruct (d !! "username") as [u|]; cbn.
  2: { split_and!; [done|done|done|done|done|by rewrite Hnew]. }
  destruct (d !! "password") as [p|]; cbn.
  2: { split_and!; [done|done|done|done|done|by rewrite Hnew]. }
  split_and!; [done|done| |done|done|].
  - intros l s Hl. rewrite list_lookup_insert_ne; [by apply Hold|].
    apply lookup_lt_Some in Hl. lia.
  - rewrite list_lookup_insert_eq; [done|]. rewrite length_app. cbn. lia.
Qed.

(** X15.  Both authentication methods first replace [self.session] by a new
    session.  Every session that existed before is left as it was, without
    credentials; a missing key is never reported; the new session carries the
    credentials when the secrets hold both [username] and [password] and no
    authentication at all otherwise. *)
Theorem authentication_goes_to_a_new_session (st : state V) :
  (let r := http_basic_auth st in
   session r.2 = length (sessions st)
   ∧ sessions st !! session r.2 = None
   ∧ (∀ l s, sessions st !! l = Some s → sessions r.2 !! l = Some s)
   ∧ (∀ k, r.1 ≠ inl (KeyError k))
   ∧ (is_Some (secrets_attr st) → r.1 = inr tt)
   ∧ session_auth <$> sessions r.2 !! session r.2
     = Some match secrets_attr st with
            | Some d =>
                match d !! "username", d !! "password" with
                | Some u, Some p => Some (HTTPBasicAuth u p)
                | _, _ => None
                end
            | None => None
            end)
  ∧ (let r := http_digest_auth st in
     session r.2 = length (sessions st)
     ∧ sessions st !! session r.2 = None
     ∧ (∀ l s, sessions st !! l = Some s → sessions r.2 !! l = Some s)
     ∧ (∀ k, r.1 ≠ inl (KeyError k))
     ∧ (is_Some (secrets_attr st) → r.1 = inr tt)
     ∧ session_auth <$> sessions r.2 !! session r.2
       = Some match secrets_attr st with
              | Some d =>
                  match d !! "username", d !! "password" with
                  | Some u, Some p => Some (HTTPDigestAuth u p)
                  | _, _ => None
                  end
              | None => None
              end).
Proof. split; apply http_auth_spec. Qed.

End WithValues.

End ClientFacts.

(** * The further properties at concrete inputs *)

Lemma toy_parse_raises_ParseError s v e :
  (toy_parse s v).1 = Some e → exc_cls e ≠ ParsingException.
Proof.
  unfold toy_parse, rdf_parse_source_into_vocabulary.
  destruct (toy_parse_content (content s)) as [ds|].
  - cbn [fst]. generalize (elements v).
    induction ds as [|d r IH]; intros els; cbn [declare_all fst]; [done|].
    unfold toy_conflicts at 1. apply IH.
  - cbn. by intros [= <-].
Qed.

Lemma old_source_failure_propagates_unwrapped_witness :
  let r := parse_sources_into_vocabulary toy_parse toy_post 0
             [{| source_name := "b"; content := "Y"; timestamp := 2 |}]
             world_spoiled in
  r.1 = Raise (Exc ParseError ["syntax"; "a"] None)
  ∧ ∃ tried,
      tried `prefix_of` dict_values (sources spoiled)
      ∧ trace r.2
        = trace world_spoiled ++ EvNewVocabulary (length (heap world_spoiled))
            :: ((λ s, EvParse s (length (heap world_spoiled))) <$> tried).
Proof.
  apply (old_source_failure_propagates_unwrapped toy_parse toy_post 0 spoiled);
    reflexivity.
Defined.

Lemma non_Exception_passes_the_handler_witness :
  (parse_sources_into_vocabulary toy_parse interrupted_post 0
     [{| source_name := "a"; content := "X"; timestamp := 5 |}] (world0 5)).1
  = Raise (Exc KeyboardInterrupt [] None).
Proof.
  apply (non_Exception_passes_the_handler toy_parse interrupted_post
           0 Vocabulary_init _ (world0 5) Vocabulary_init).
  - reflexivity.
  - reflexivity.
  - right. eexists. split; reflexivity.
  - reflexivity.
Defined.

Lemma configurator_never_raises_ParsingException_witness :
  heap (world0 5) !! 0 = Some Vocabulary_init
  ∧ (toy_add 0 "a" "!" (world0 5)).1
    = Raise (Exc TypeError
               ["__init__() missing 1 required positional argument: 'value'"]
               (Some (Exc ParseError ["syntax"; "a"] None)))
  ∧ exc_cls (Exc TypeError
               ["__init__() missing 1 required positional argument: 'value'"]
               (Some (Exc ParseError ["syntax"; "a"] None)))
    ≠ ParsingException.
Proof.
  split_and!; [reflexivity|reflexivity|].
  apply (proj1 (configurator_never_raises_ParsingException toy_parse toy_post
                  0 Vocabulary_init (world0 5) eq_refl
                  toy_parse_raises_ParseError) "a" "!").
  reflexivity.
Defined.

Lemma file_source_has_a_plain_name_and_one_line_witness :
  ∃ src,
    toy_add_file 0 "/data/animals.v2.ttl" world_file
    = parse_sources_into_vocabulary toy_parse toy_post 0 [src] world_file
    ∧ ("."%char ∉ list_ascii_of_string (source_name src))
    ∧ ("/"%char ∉ list_ascii_of_string (source_name src))
    ∧ (newline ∉ list_ascii_of_string (content src))
    ∧ timestamp src = clock world_file.
Proof.
  apply (file_source_has_a_plain_name_and_one_line toy_parse toy_post
           0 "/data/animals.v2.ttl" two_lines world_file).
  vm_compute. reflexivity.
Defined.

Lemma file_source_name_is_the_stem_witness :
  toy_add_file 0 "/data/animals.v2.ttl" world_file
  = toy_add 0 "animals" (str_remove newline two_lines) world_file.
Proof.
  apply (proj1 (file_source_name_is_the_stem toy_parse toy_post 0
                  "/data" "animals" "v2.ttl" two_lines world_file
                  ltac:(apply (bool_decide_unpack _); vm_compute; exact I)
                  ltac:(apply (bool_decide_unpack _); vm_compute; exact I)
                  ltac:(apply (bool_decide_unpack _); vm_compute; exact I))).
  vm_compute. reflexivity.
Defined.

Lemma file_content_is_the_lines_glued_witness :
  toy_add_file 0 "/data/animals.v2.ttl" world_file
  = toy_add 0 "animals" "ABC" world_file.
Proof.
  apply (file_content_is_the_lines_glued toy_parse toy_post 0
           "/data/animals.v2.ttl" ["AB"; "C"] world_file).
  - repeat constructor; apply (bool_decide_unpack _); vm_compute; exact I.
  - vm_compute. reflexivity.
Defined.

Lemma notification_mqtt_fields :
  Forall (λ k, is_Some (notification_mqtt !! k)) Notification.field_names.
Proof. repeat constructor; vm_compute; eauto. Qed.

Lemma notification_except_fields :
  Forall (λ k, is_Some (notification_except !! k)) Notification.field_names.
Proof. repeat constructor; vm_compute; eauto. Qed.


Lemma attrs_assignment_is_not_checked_witness :
  Notification.setattr notification_except "attrs"
    (Notification.VStrList ["temperature"])
  = Notification.Valid
      (<["attrs" := Notification.VStrList ["temperature"]]> notification_except)
  ∧ Notification.is_set
      (<["attrs" := Notification.VStrList ["temperature"]]> notification_except)
      "attrs" = true
  ∧ Notification.is_set
      (<["attrs" := Notification.VStrList ["temperature"]]> notification_except)
      "exceptAttrs" = true.
Proof.
  apply (NotificationMore.attrs_assignment_is_not_checked
           notification_except ["temperature"] notification_except_fields).
  - vm_compute. lia.
  - vm_compute. reflexivity.
Defined.

Lemma switching_endpoints_needs_a_clear_witness :
  (∃ errs, Notification.setattr notification_mqtt "http" receiver
           = Notification.ValidationError errs)
  ∧ Notification.setattr notification_mqtt "mqtt" Notification.VNone
    = Notification.Valid (<["mqtt" := Notification.VNone]> notification_mqtt)
  ∧ Notification.setattr (<["mqtt" := Notification.VNone]> notification_mqtt)
      "http" receiver
    = Notification.Valid
        (<["http" := receiver]>
           (<["mqtt" := Notification.VNone]> notification_mqtt))
  ∧ Notification.endpoints_set
      (<["http" := receiver]>
         (<["mqtt" := Notification.VNone]> notification_mqtt)) = 1%nat.
Proof.
  apply (NotificationMore.switching_endpoints_needs_a_clear
           notification_mqtt "mqtt" "http" receiver notification_mqtt_fields).
  - repeat constructor.
  - repeat constructor.
  - discriminate.
  - vm_compute. reflexivity.
  - vm_compute. lia.
  - reflexivity.
Defined.

Lemma assigning_secrets_merges_witness :
  let data : gmap string string := {[ "username" := "bob" ]} in
  let st1 := (Client.secrets_set data client0).2 in
  let st2 := (Client.secrets_set data (Client.secrets_del client0).2).2 in
  (Client.secrets_set data client0).1 = inr tt
  ∧ (∃ d1, (Client.secrets_get st1).1 = inr d1
       ∧ (∀ k v, data !! k = Some v → d1 !! k = Some v)
       ∧ (∀ k, data !! k = None →
               d1 !! k
               = ({[ "username" := "ada"; "token" := "old" ]}
                    : gmap string string) !! k))
  ∧ (Client.secrets_get st2).1 = inr data.
Proof.
  apply (ClientFacts.assigning_secrets_merges
           {[ "username" := "ada"; "token" := "old" ]}
           {[ "username" := "bob" ]} client0).
  reflexivity.
Defined.



Lemma first_add_parses_only_the_new_source_witness :
  let w := world0 5 in
  let l0 := length (heap w) in
  let w0 := (create_vocabulary w).2 in
  let src := {| source_name := "a"; content := "X"; timestamp := clock w |} in
  let r := toy_add l0 "a" "X" w0 in
  (create_vocabulary w).1 = Return l0
  ∧ heap w !! l0 = None
  ∧ heap w0 !! l0 = Some Vocabulary_init
  ∧ preserved w w0
  ∧ r.1 = match toy_parse src Vocabulary_init with
          | (Some e, _) => Raise (escaping e)
          | (None, v) =>
              match toy_post v Vocabulary_init with
              | (Some e, _) => Raise (escaping e)
              | (None, _) => Return (S l0)
              end
          end
  ∧ (∃ rest, trace r.2
             = trace w0 ++ EvNewVocabulary (S l0) :: EvParse src (S l0) :: rest
             ∧ (rest = [] ∨ rest = [EvPostProcess (S l0) l0]))
  ∧ (∀ v v', toy_parse src Vocabulary_init = (None, v) →
             toy_post v Vocabulary_init = (None, v') →
             heap r.2 !! S l0 = Some v').
Proof.
  exact (first_add_parses_only_the_new_source toy_parse toy_post
           "a" "X" (world0 5)).
Defined.


Lemma authentication_goes_to_a_new_session_witness :
  let r := Client.http_basic_auth client0 in
  Client.session r.2 = 1
  ∧ r.1 = inr tt
  ∧ Client.sessions r.2 !! 0 = Some Client.new_Session
  ∧ Client.session_auth <$> Client.sessions r.2 !! 1 = Some None.
Proof.
  destruct (ClientFacts.authentication_goes_to_a_new_session client0)
    as [(H1 & _ & H3 & _ & H5 & H6) _].
  split_and!.
  - exact H1.
  - apply H5. by eexists.
  - by apply H3.
  - exact H6.
Defined.
